(** * iden_scraper: the table-harvesting core of [sol.py]

    A shallow embedding of [extract_table_rows], [has_next_page],
    [go_next_page] and [harvest_all_pages] together with the properties the
    specification states about them.

    Conventions of the embedding:
    - a Python [str] is a [string]; a character is a code point below 256;
    - a Python [dict] of strings is an association list in insertion order
      whose keys are kept unique by [dict_set];
    - the browser page is observed through DOM snapshots: a located element
      is a DOM subtree together with the chain of its ancestors, and a CSS
      selector is matched the way [querySelectorAll] does it, in document
      order;
    - the application behind the page is a transition system: a click or a
      scroll moves it to its next state, and every read is a snapshot of the
      current state;
    - the set [seen_hashes] is a [gset string], the list [all_rows] a list;
    - the harvest state carries a log of the calls made so far, which the
      source does not have: it is what the properties about advances, probes
      and scroll steps are stated on. *)

From Stdlib Require Import ZArith Ascii DecimalString DecimalNat.
From stdpp Require Import base list strings gmap sorting.

Local Open Scope nat_scope.
#[local] Set Warnings "-clear-no-such-hyp".

(* ===================================================================== *)
(** ** Python strings *)
(* ===================================================================== *)

Module PyStr.

(** [str.isspace] on one character, for code points below 256: the ASCII
    white space 9..13 and 32, the separators 28..31, NEL (133) and the
    no-break space (160). *)
Definition isspace (c : ascii) : bool :=
  let n := N_of_ascii c in
  (((9 <=? n) && (n <=? 13)) || ((28 <=? n) && (n <=? 32))
   || (n =? 133) || (n =? 160))%N.

Fixpoint lstrip (s : string) : string :=
  match s with
  | EmptyString => EmptyString
  | String c s' => if isspace c then lstrip s' else s
  end.

Fixpoint rstrip (s : string) : string :=
  match s with
  | EmptyString => EmptyString
  | String c s' =>
      match rstrip s' with
      | EmptyString => if isspace c then EmptyString else String c EmptyString
      | t => String c t
      end
  end.

(** [s.strip()] *)
Definition strip (s : string) : string := rstrip (lstrip s).

(** [str(i)] for a non-negative integer. *)
Definition of_nat (i : nat) : string := NilZero.string_of_uint (Nat.to_uint i).

(** [sep.join(parts)] *)
Fixpoint join (sep : string) (parts : list string) : string :=
  match parts with
  | [] => ""
  | [p] => p
  | p :: ps => p +:+ sep +:+ join sep ps
  end.

(** Python truthiness of a string: [x or y]. *)
Definition or_else (x y : string) : string :=
  match x with EmptyString => y | _ => x end.

End PyStr.

(* ===================================================================== *)
(** ** Python dictionaries of strings, and [json.dumps(_, sort_keys=True)] *)
(* ===================================================================== *)

(** A row is a [Dict[str, str]]: the pairs in insertion order. *)
Definition row : Type := list (string * string).

(** [d[k] = v]: an existing key keeps its position and takes the new value,
    a new key goes to the end. *)
Fixpoint dict_set (k v : string) (d : row) : row :=
  match d with
  | [] => [(k, v)]
  | (k', v') :: d' =>
      if decide (k = k') then (k', v) :: d' else (k', v') :: dict_set k v d'
  end.

(** [{k: v for (k, v) in items}] *)
Definition dict_of_items (items : list (string * string)) : row :=
  foldl (λ d kv, dict_set kv.1 kv.2 d) [] items.

(** [len(d)] *)
Definition dict_len (d : row) : nat := length d.

Module Json.

Definition dquote : ascii := ascii_of_nat 34.
Definition backslash : ascii := ascii_of_nat 92.

Definition hex_digit (n : N) : ascii :=
  ascii_of_N (if (n <? 10)%N then 48 + n else 87 + n).

(** One character of a JSON string under [ensure_ascii=True]: the two
    characters that must be escaped, the short escapes, printable ASCII as
    it is, and everything else as a [\u00xx] escape. *)
Definition escape_char (c : ascii) : string :=
  let n := N_of_ascii c in
  let esc (x : ascii) := String backslash (String x EmptyString) in
  if (n =? 34)%N then esc dquote
  else if (n =? 92)%N then esc backslash
  else if (n =? 10)%N then esc "n"%char
  else if (n =? 13)%N then esc "r"%char
  else if (n =? 9)%N then esc "t"%char
  else if (n =? 8)%N then esc "b"%char
  else if (n =? 12)%N then esc "f"%char
  else if ((32 <=? n) && (n <=? 126))%N then String c EmptyString
  else String backslash
         (String "u" (String "0" (String "0"
            (String (hex_digit (n / 16)) (String (hex_digit (n mod 16)) EmptyString))))).

Fixpoint escape (s : string) : string :=
  match s with
  | EmptyString => EmptyString
  | String c s' => escape_char c +:+ escape s'
  end.

Definition encode_str (s : string) : string :=
  String dquote (escape s +:+ String dquote EmptyString).

(** The order [sort_keys=True] sorts the items by: the keys, compared as
    Python compares strings, code point by code point. *)
Definition item_le (x y : string * string) : Prop := String.le x.1 y.1.

#[global] Instance item_le_dec : RelDecision item_le.
Proof. intros x y. unfold item_le. apply _. Defined.

Definition encode_item (kv : string * string) : string :=
  encode_str kv.1 +:+ ": " +:+ encode_str kv.2.

(** [json.dumps(d, sort_keys=True)] for a dictionary of strings. *)
Definition dumps_sorted (d : row) : string :=
  "{" +:+ PyStr.join ", " (encode_item <$> merge_sort item_le d) +:+ "}".

End Json.

(* ===================================================================== *)
(** ** DOM snapshots and locators *)
(* ===================================================================== *)

Inductive tag : Set :=
  Ttable | Tthead | Ttbody | Ttfoot | Ttr | Tth | Ttd | Tother.

#[global] Instance tag_eq_dec : EqDecision tag.
Proof. solve_decision. Defined.

(** An element with its tag, its [role] attribute and its children, or a
    text node. *)
#[local] Unset Elimination Schemes.
Inductive node : Type :=
  | Elem (t : tag) (role : option string) (kids : list node)
  | Text (s : string).
#[local] Set Elimination Schemes.

(** What a selector looks at on one element. *)
Definition hdr : Type := tag * option string.

(** An element found by a locator: the subtree, and its ancestors from the
    parent upwards. *)
Record located : Type := Located { loc_anc : list hdr; loc_elt : node }.

(** [textContent]: the text of all descendant text nodes, in document order. *)
Fixpoint text_content (n : node) : string :=
  match n with
  | Text s => s
  | Elem _ _ kids =>
      (fix go (ks : list node) : string :=
         match ks with
         | [] => EmptyString
         | k :: ks' => text_content k +:+ go ks'
         end) kids
  end.

(** The element itself followed by all its descendant elements, in document
    order, each with its ancestors. *)
Fixpoint elems (anc : list hdr) (n : node) : list located :=
  match n with
  | Text _ => []
  | Elem t r kids =>
      Located anc n ::
      (fix go (ks : list node) : list located :=
         match ks with
         | [] => []
         | k :: ks' => elems ((t, r) :: anc) k ++ go ks'
         end) kids
  end.

Definition descendants (l : located) : list located :=
  tail (elems (loc_anc l) (loc_elt l)).

(** A compound selector: an optional type selector and an optional
    [[role='...']] attribute selector. *)
Record compound : Type := Compound { sel_tag : option tag; sel_role : option string }.

Definition by_tag (t : tag) : compound := Compound (Some t) None.
Definition by_role (r : string) : compound := Compound None (Some r).
Definition by_tag_role (t : tag) (r : string) : compound := Compound (Some t) (Some r).

(** A complex selector: compounds joined by the descendant combinator,
    outermost first; a selector list: complex selectors joined by commas. *)
Definition complex : Type := list compound.
Definition selector : Type := list complex.

Definition matches_compound (c : compound) (h : hdr) : bool :=
  match sel_tag c with Some t => bool_decide (h.1 = t) | None => true end
  && match sel_role c with Some r => bool_decide (h.2 = Some r) | None => true end.

(** The remaining compounds, innermost first, against the ancestors, nearest
    first. *)
Fixpoint matches_ancestors (cs : list compound) (anc : list hdr) : bool :=
  match cs with
  | [] => true
  | c :: cs' =>
      (fix find (anc : list hdr) : bool :=
         match anc with
         | [] => false
         | a :: anc' =>
             if matches_compound c a then matches_ancestors cs' anc'
             else find anc'
         end) anc
  end.

Definition node_hdr (n : node) : option hdr :=
  match n with Elem t r _ => Some (t, r) | Text _ => None end.

Definition matches_complex (cx : complex) (l : located) : bool :=
  match reverse cx, node_hdr (loc_elt l) with
  | c :: cs, Some h => matches_compound c h && matches_ancestors cs (loc_anc l)
  | _, _ => false
  end.

Definition matches (s : selector) (l : located) : bool :=
  existsb (λ cx, matches_complex cx l) s.

(** [scope.locator(s)]: the descendants of [scope] matching [s], in document
    order. A locator taken from a missing element finds nothing. *)
Definition locator (scope : option located) (s : selector) : list located :=
  match scope with
  | Some l => filter (λ d, matches s d = true) (descendants l)
  | None => []
  end.

(** [.nth(i)], [.count()], [.all_text_contents()] *)
Definition loc_nth (i : nat) (ls : list located) : option located := ls !! i.
Definition loc_count (ls : list located) : nat := length ls.
Definition all_text_contents (ls : list located) : list string :=
  (text_content ∘ loc_elt) <$> ls.

(** The selectors of [extract_table_rows]. *)
Definition SEL_HEADER_CELLS : selector :=
  [ [by_tag Tthead; by_tag Ttr; by_tag Tth];
    [by_tag Tthead; by_tag Tth];
    [by_role "columnheader"] ].
Definition SEL_TR : selector := [ [by_tag Ttr] ].
Definition SEL_CELLS : selector := [ [by_tag Tth]; [by_tag Ttd]; [by_role "cell"] ].
Definition SEL_BODY_ROWS : selector :=
  [ [by_tag Ttbody; by_tag Ttr]; [by_tag_role Ttr "row"] ].
Definition SEL_ALL_ROWS : selector := [ [by_tag Ttbody; by_tag Ttr]; [by_tag Ttr] ].

(* ===================================================================== *)
(** ** The page as the harvester observes it *)
(* ===================================================================== *)

(** The first element matching [SEL_PAGINATION_NEXT]: whether it is
    disabled, how many descendants match [SEL_PAGINATION_DISABLED], and
    whether it is visible. *)
Record button : Type := Button {
  btn_is_disabled : bool;
  btn_disabled_inside : nat;
  btn_is_visible : bool
}.

(** One snapshot of the page. [table_aria] and [table_css] are the first
    matches of [SEL_TABLE_ARIA] and [SEL_TABLE_FALLBACK] with their
    visibility; [has_match c] tells whether [page.locator(c).first] finds an
    element. *)
Record page : Type := Page {
  table_aria : option (located * bool);
  table_css : option (located * bool);
  pagination_next : option button;
  has_match : string → bool
}.

Definition SEL_TABLE_CONTAINER : string :=
  "[data-testid=table-container], .table-container, .ag-center-cols-container".

Definition SCROLLABLE_CANDIDATES : list string :=
  [ SEL_TABLE_CONTAINER;
    ".ReactVirtualized__Grid";
    ".infinite-scroll-component";
    ".ag-body-viewport" ].

(* ===================================================================== *)
(** ** [extract_table_rows] *)
(* ===================================================================== *)

(** The table the function reads: the ARIA table when it exists and is
    visible, else the [table] element when it exists and is visible. *)
Definition find_table (p : page) : option located :=
  match table_aria p with
  | Some (t, true) => Some t
  | _ =>
      match table_css p with
      | Some (t, true) => Some t
      | _ => None
      end
  end.

(** [[h.strip() or f"col_{i}" for i, h in enumerate(texts)]] *)
Definition header_keys (texts : list string) : list string :=
  imap (λ i h, PyStr.or_else (PyStr.strip h) ("col_" +:+ PyStr.of_nat i)) texts.

(** The texts of the semantic header area. *)
Definition header_area (table : located) : list string :=
  all_text_contents (locator (Some table) SEL_HEADER_CELLS).

(** The cell texts of the first [tr] of the table. *)
Definition first_row_cells (table : located) : list string :=
  all_text_contents
    (locator (loc_nth 0 (locator (Some table) SEL_TR)) SEL_CELLS).

(** The headers and [row_start_idx]. Reading a DOM snapshot does not raise,
    so the two [except] branches of the source, which stand for a failure of
    the automation engine itself, have no counterpart here. *)
Definition read_headers (table : located) : list string * nat :=
  let headers := header_keys (header_area table) in
  match headers with
  | [] => (header_keys (first_row_cells table), 1)
  | _ :: _ => (headers, 1)
  end.

(** [row_count] *)
Definition read_row_count (table : located) : nat :=
  let row_count := loc_count (locator (Some table) SEL_BODY_ROWS) in
  if decide (row_count = 0) then loc_count (locator (Some table) SEL_TR)
  else row_count.

(** The cell texts of the row at index [r]. *)
Definition read_cells (table : located) (r : nat) : list string :=
  all_text_contents
    (locator (loc_nth r (locator (Some table) SEL_ALL_ROWS)) SEL_CELLS).

(** The pad/truncate step. *)
Definition normalize (headers cells : list string) : list string :=
  match headers with
  | _ :: _ =>
      if decide (length cells ≠ length headers) then
        if decide (length cells < length headers)
        then cells ++ replicate (length headers - length cells) ""
        else take (length headers) cells
      else cells
  | [] => cells
  end.

(** [cells[i].strip() if i < len(cells) else ""] *)
Definition cell_at (cells : list string) (i : nat) : string :=
  match cells !! i with
  | Some c => PyStr.strip c
  | None => ""
  end.

(** The dictionary built for one row from the normalized cells. *)
Definition build_row (headers cells : list string) : row :=
  match headers with
  | _ :: _ => dict_of_items (imap (λ i h, (h, cell_at cells i)) headers)
  | [] =>
      dict_of_items
        (imap (λ i (_ : string), ("col_" +:+ PyStr.of_nat i, cell_at cells i)) cells)
  end.

Definition make_row (headers cells : list string) : row :=
  build_row headers (normalize headers cells).

(** The rows of one table: the loop over [range(row_start_idx, row_count)]. *)
Definition table_rows (table : located) : list row :=
  let '(headers, row_start_idx) := read_headers table in
  let row_count := read_row_count table in
  (λ r, make_row headers (read_cells table r))
    <$> seq row_start_idx (row_count - row_start_idx).

Definition extract_table_rows (p : page) : list row :=
  match find_table p with
  | Some table => table_rows table
  | None => []
  end.

(* ===================================================================== *)
(** ** [has_next_page] *)
(* ===================================================================== *)

Definition has_next_page (p : page) : bool :=
  match pagination_next p with
  | None => false
  | Some next_btn =>
      if btn_is_disabled next_btn then false
      else if decide (0 < btn_disabled_inside next_btn) then false
      else btn_is_visible next_btn
  end.

(* ===================================================================== *)
(** ** Building pages for the examples *)
(* ===================================================================== *)

Definition txt (t : tag) (s : string) : node := Elem t None [Text s].
Definition tr_of (cell : tag) (cells : list string) : node :=
  Elem Ttr None (txt cell <$> cells).

(** A conventional table: one header row of [th] inside [thead], and the
    data rows of [td] inside [tbody]; no [role] attributes. *)
Definition plain_table (hs : list string) (rows : list (list string)) : node :=
  Elem Ttable None
    [ Elem Tthead None [tr_of Tth hs];
      Elem Ttbody None (tr_of Ttd <$> rows) ].

(** The same table with the [role] attribute [head_role] on the [tr] of the
    header row. *)
Definition thead_table (head_role : option string) (hs : list string)
    (rows : list (list string)) : node :=
  Elem Ttable None
    [ Elem Tthead None [Elem Ttr head_role (txt Tth <$> hs)];
      Elem Ttbody None (tr_of Ttd <$> rows) ].

(** A table without header area: rows of [td] inside [tbody]. *)
Definition bare_table (rows : list (list string)) : node :=
  Elem Ttable None [ Elem Ttbody None (tr_of Ttd <$> rows) ].

Definition page_of (anc : list hdr) (t : node) (next : option button) : page :=
  Page None (Some (Located anc t, true)) next (λ _, false).

(* ===================================================================== *)
(** ** The de-duplicating accumulator of [harvest_all_pages] *)
(* ===================================================================== *)

(** What a Python call hands back: [None] or an integer. *)
Inductive retval : Set := RNone | RInt (n : Z).

(** The two [nonlocal] variables of [add_rows]. *)
Record accum : Type := Accum {
  all_rows : list row;
  seen_hashes : gset string
}.

Definition empty_accum : accum := Accum [] ∅.

(** [h = json.dumps(row, sort_keys=True)] *)
Definition fingerprint (r : row) : string := Json.dumps_sorted r.

(** The body of the [for row in new_rows] loop. *)
Definition add_row (a : accum) (r : row) : accum :=
  let h := fingerprint r in
  if decide (h ∈ seen_hashes a) then a
  else Accum (all_rows a ++ [r]) ({[h]} ∪ seen_hashes a).

(** [add_rows(new_rows)]: the function has no [return] statement, so the
    call evaluates to [None]. *)
Definition add_rows (new_rows : list row) (a : accum) : retval * accum :=
  (RNone, foldl add_row a new_rows).

(* ===================================================================== *)
(** ** [harvest_all_pages] *)
(* ===================================================================== *)

(** What the harvester does to the application. *)
Inductive action : Set := Click | ScrollBy (container : string).

(** The calls of one harvest, in the order they happen. *)
Inductive event : Set :=
  | EvRead                          (* add_rows(extract_table_rows(page)) *)
  | EvProbe (answer : bool)         (* has_next_page(page) *)
  | EvAdvance                       (* go_next_page(page) *)
  | EvScroll (container : string).  (* one scroll increment *)

#[global] Instance event_eq_dec : EqDecision event.
Proof. solve_decision. Defined.

Definition reads (log : list event) : nat :=
  length (filter (λ e, e = EvRead) log).
Definition advances (log : list event) : nat :=
  length (filter (λ e, e = EvAdvance) log).
Definition probes (log : list event) : list bool :=
  omap (λ e, match e with EvProbe b => Some b | _ => None end) log.
Definition scrolls (log : list event) : list string :=
  omap (λ e, match e with EvScroll c => Some c | _ => None end) log.

Section Harvest.

(** The application: its states, what the page shows in each, and how it
    reacts to a click on the pagination button or to a scroll. *)
Context {world : Type}.
Variable snapshot : world → page.
Variable react : action → world → world.

(** The number of consecutive rounds without growth that ends the scroll
    loop. *)
Variable idle_threshold : nat.

Record hstate : Type := HState {
  hs_world : world;
  hs_acc : accum;
  hs_log : list event
}.

(** [add_rows(extract_table_rows(page))] *)
Definition read_and_merge (s : hstate) : hstate :=
  HState (hs_world s)
         (add_rows (extract_table_rows (snapshot (hs_world s))) (hs_acc s)).2
         (hs_log s ++ [EvRead]).

Definition probe_next (s : hstate) : bool * hstate :=
  let b := has_next_page (snapshot (hs_world s)) in
  (b, HState (hs_world s) (hs_acc s) (hs_log s ++ [EvProbe b])).

(** [go_next_page(page)]: the click, then the waits. *)
Definition go_next_page (s : hstate) : hstate :=
  HState (react Click (hs_world s)) (hs_acc s) (hs_log s ++ [EvAdvance]).

(** The loop [for _ in range(200)]; [fuel] is what is left of the range. *)
Fixpoint pagination_loop (fuel : nat) (paginated : bool) (s : hstate)
  : bool * hstate :=
  match fuel with
  | 0 => (paginated, s)
  | S fuel' =>
      let '(b, s1) := probe_next s in
      if b then pagination_loop fuel' true (read_and_merge (go_next_page s1))
      else (paginated, s1)
  end.

(** [containers]: the candidates that exist, or the page body. *)
Definition scroll_containers (p : page) : list string :=
  match filter (λ c, has_match p c = true) SCROLLABLE_CANDIDATES with
  | [] => ["body"]
  | cs => cs
  end.

(** Modelled from the spec: one scroll increment, which [sol.py] does not
    contain (the file stops before it): the first of the containers is
    scrolled, and the application reacts. *)
Definition scroll_increment (containers : list string) (s : hstate) : hstate :=
  let c := default "body" (head containers) in
  HState (react (ScrollBy c) (hs_world s)) (hs_acc s) (hs_log s ++ [EvScroll c]).

(** Modelled from the spec: the end of the body of the scroll loop, which
    [sol.py] does not contain (the file stops after the update of
    [idle_rounds]). After the read, the merge and the comparison of the
    totals, which the source has, the loop is left once [idle_rounds] has
    reached the idle threshold; otherwise the total of this round becomes
    the previous total and the first container is scrolled by one increment.
    [None] stands for leaving the loop, after which the accumulated rows are
    handed back. *)
Definition scroll_round_end (containers : list string) (current_count : Z)
    (idle_rounds : nat) (s : hstate) : option (Z * hstate) :=
  if decide (idle_threshold ≤ idle_rounds) then None
  else Some (current_count, scroll_increment containers s).

(** The loop [for _ in range(100)]. *)
Fixpoint scroll_loop (fuel : nat) (containers : list string)
    (previous_count : Z) (idle_rounds : nat) (s : hstate) : hstate :=
  match fuel with
  | 0 => s
  | S fuel' =>
      let s1 := read_and_merge s in
      let current_count := Z.of_nat (length (all_rows (hs_acc s1))) in
      let idle_rounds' :=
        if decide (current_count = previous_count) then idle_rounds + 1 else 0 in
      match scroll_round_end containers current_count idle_rounds' s1 with
      | None => s1
      | Some (previous_count', s2) =>
          scroll_loop fuel' containers previous_count' idle_rounds' s2
      end
  end.

Definition PAGINATION_CAP : nat := 200.
Definition SCROLL_CAP : nat := 100.

(** The state in which the harvest starts. *)
Definition harvest_init (w : world) : hstate := HState w empty_accum [].

(** The first read and the pagination phase. *)
Definition harvest_paginate (w : world) : bool * hstate :=
  pagination_loop PAGINATION_CAP false (read_and_merge (harvest_init w)).

(** One run of [harvest_all_pages], with the log of its calls: the first
    read, the pagination loop, the early [return] when a page was turned,
    and the scroll loop otherwise. *)
Definition harvest_run (w : world) : hstate :=
  let '(paginated, s) := harvest_paginate w in
  if paginated then s
  else scroll_loop SCROLL_CAP (scroll_containers (snapshot (hs_world s)))
                   (-1) 0 s.

Definition harvest_all_pages (w : world) : list row :=
  all_rows (hs_acc (harvest_run w)).

(** The application after [k] clicks on "next". *)
Definition clicked (k : nat) (w : world) : world := Nat.iter k (react Click) w.

(** One pass through the body of the pagination loop when the button is
    there. *)
Definition page_turn (s : hstate) : hstate :=
  read_and_merge (go_next_page (probe_next s).2).

(** One round of the scroll loop that does not end it: read, merge,
    scroll. *)
Definition scroll_step (c : list string) (s : hstate) : hstate :=
  scroll_increment c (read_and_merge s).

(** The number of accumulated rows after the merge of round [r], counted
    from 1, were the loop to go on that long. *)
Definition round_total (c : list string) (s : hstate) (r : nat) : nat :=
  length (all_rows (hs_acc (read_and_merge (Nat.iter (r - 1) (scroll_step c) s)))).

(** The number of rounds the loop makes, as a function of the totals it
    sees: [totals j] is the total of the round after the next [j]. *)
Fixpoint rounds_on_totals (fuel : nat) (totals : nat → Z)
    (previous_count : Z) (idle_rounds : nat) : nat :=
  match fuel with
  | 0 => 0
  | S fuel' =>
      let current_count := totals 0 in
      let idle_rounds' :=
        if decide (current_count = previous_count) then idle_rounds + 1 else 0 in
      if decide (idle_threshold ≤ idle_rounds') then 1
      else S (rounds_on_totals fuel' (totals ∘ S) current_count idle_rounds')
  end.

End Harvest.

(** The number of rounds in a row, up to round [r], whose total is the total
    of the round before; [g 0] is the initial [previous_count] and [g r] the
    total of round [r]. *)
Fixpoint idle_run (g : nat → Z) (r : nat) : nat :=
  match r with
  | 0 => 0
  | S r' => if decide (g (S r') = g r') then idle_run g r' + 1 else 0
  end.

Section HarvestDefs.

Context {world : Type}.
Variable snapshot : world → page.
Variable react : action → world → world.
Variable idle_threshold : nat.

(** The state in which the scroll phase starts. *)
Definition scroll_start (w : world) : hstate :=
  (harvest_paginate snapshot react w).2.

(** The containers the scroll phase works with. *)
Definition harvest_containers (w : world) : list string :=
  scroll_containers (snapshot (hs_world (scroll_start w))).

(** The total of accumulated rows after scroll round [r] of the harvest. *)
Definition harvest_round_total (w : world) (r : nat) : nat :=
  round_total snapshot react (harvest_containers w) (scroll_start w) r.

(** The number of rounds the scroll loop of the harvest makes. *)
Definition harvest_scroll_rounds (w : world) : nat :=
  reads (hs_log (harvest_run snapshot react idle_threshold w))
  - reads (hs_log (scroll_start w)).

(** What the scroll loop compares in round [r]: [previous_count], which is
    -1 in the first round, and the total of the round. *)
Definition harvest_counts (w : world) (r : nat) : Z :=
  match r with
  | 0 => -1
  | S _ => Z.of_nat (harvest_round_total w r)
  end.

(** Round [r] brought no new row: its total is the total of the round
    before. The first round is compared with -1 and always counts as
    growth. *)
Definition idle_round (w : world) (r : nat) : Prop :=
  2 ≤ r ∧ harvest_round_total w r = harvest_round_total w (r - 1).

(** Round [e] completes [idle_threshold] rounds in a row without a new
    row. *)
Definition stalled_at (w : world) (e : nat) : Prop :=
  1 ≤ e ∧ ∀ r, e - idle_threshold < r ≤ e → idle_round w r.

End HarvestDefs.


(* ===================================================================== *)
(** ** Worlds used in the examples *)
(* ===================================================================== *)

Definition enabled_next : option button := Some (Button false 0 true).

Definition rowA : row := [("name", "A"); ("price", "1")].
Definition rowB : row := [("name", "B"); ("price", "2")].

(** Two pages: the first shows row A and an enabled "next" button, the second
    shows rows A and B and no button. The state is the number of clicks. *)
Definition shop_page (n : nat) : page :=
  match n with
  | 0 => page_of [] (bare_table [["name"; "price"]; ["A"; "1"]]) enabled_next
  | _ => page_of [] (bare_table [["name"; "price"]; ["A"; "1"]; ["B"; "2"]]) None
  end.

Definition count_actions (a : action) (n : nat) : nat := S n.

(* ===================================================================== *)
(** ** Invariants and shapes the properties are stated with *)
(* ===================================================================== *)

(** All the merges of a harvest so far, starting from the empty
    accumulator. *)
Definition merge_all (batches : list (list row)) : accum :=
  foldl (λ a rs, (add_rows rs a).2) empty_accum batches.

(** Rows in first-seen order: the rows of [stream], in their order, that
    are the first with their fingerprint, no row of [earlier] and no row
    further to the front of [stream] having it. *)
Definition first_seen_from (earlier stream : list row) : list row :=
  concat (imap (λ i r,
            if decide (fingerprint r ∈ fingerprint <$> (earlier ++ take i stream))
            then [] else [r]) stream).

Definition first_seen (stream : list row) : list row :=
  first_seen_from [] stream.

(** The seen-set is the set of fingerprints of the collected rows, and no
    fingerprint occurs twice among them. *)
Definition accum_ok (a : accum) : Prop :=
  seen_hashes a = list_to_set (fingerprint <$> all_rows a)
  ∧ NoDup (fingerprint <$> all_rows a).

(** Whether the header row of a [thead_table] below the ancestors [anc] is
    among the rows that [row_count] counts: its [tr] carries [role=row], or
    the table sits inside a [tbody]. *)
Definition header_row_counted (anc : list hdr) (head_role : option string) : bool :=
  bool_decide (head_role = Some "row")
  || existsb (λ h : hdr, bool_decide (h.1 = Ttbody)) anc.

(** The located rows and cells of a conventional table below the ancestors
    [anc]. *)
Definition thead_head_row (anc : list hdr) (head_role : option string)
    (hs : list string) : located :=
  Located ((Tthead, None) :: (Ttable, None) :: anc)
          (Elem Ttr head_role (txt Tth <$> hs)).
Definition thead_head_cell (anc : list hdr) (head_role : option string)
    (x : string) : located :=
  Located ((Ttr, head_role) :: (Tthead, None) :: (Ttable, None) :: anc) (txt Tth x).
Definition plain_body_row (anc : list hdr) (cells : list string) : located :=
  Located ((Ttbody, None) :: (Ttable, None) :: anc) (tr_of Ttd cells).
Definition plain_body_cell (anc : list hdr) (x : string) : located :=
  Located ((Ttr, None) :: (Ttbody, None) :: (Ttable, None) :: anc) (txt Ttd x).

(* ===================================================================== *)
(** ** Example pages *)
(* ===================================================================== *)

(** A table with the same header text on two columns. *)
Definition twin_table : located :=
  Located [] (plain_table ["item"; "item"] [["A"; "1"]; ["B"; "2"]]).
Definition twin_page : page := Page None (Some (twin_table, true)) None (λ _, false).

(** A table whose rows are shorter and longer than the header. *)
Definition ragged_table : located :=
  Located [] (plain_table ["name"; "price"]
                [["A"; " 1 "; "edit"]; ["B"]; ["C"; "3"]]).
Definition ragged_page : page :=
  Page None (Some (ragged_table, true)) None (λ _, false).

(** What the specification claims of every table read with a non-empty
    header list. *)
Definition rows_as_wide_as_headers : Prop :=
  ∀ (p : page) (table : located) (r : row),
    find_table p = Some table →
    (read_headers table).1 ≠ [] →
    r ∈ extract_table_rows p →
    dict_len r = length (read_headers table).1.

(** What the specification claims of two rows with the same pairs in
    different insertion orders. *)
Definition fingerprint_tells_order : Prop :=
  ∀ r1 r2 : row,
    NoDup r1.*1 → r1 ≡ₚ r2 → r1 ≠ r2 → fingerprint r1 ≠ fingerprint r2.

(** The two pages of the shop, with every scroll container present. *)
Definition scrollable_shop_page (n : nat) : page :=
  Page (table_aria (shop_page n)) (table_css (shop_page n))
       (pagination_next (shop_page n)) (λ _, true).

(** An endless feed: after [n] scrolls the page shows the row with [n] tally
    marks, up to row 98, which stays. *)
Fixpoint tally (k : nat) : string :=
  match k with
  | 0 => EmptyString
  | S k' => String "|" (tally k')
  end.

Definition feed_row (k : nat) : row := [("id", tally k)].

Definition feed_page (n : nat) : page :=
  page_of [] (bare_table [["id"]; [tally (n `min` 98)]]) None.

(** A feed that is slow to load: the second row shows after the third
    scroll only. *)
Definition late_page (n : nat) : page :=
  page_of []
    (bare_table (["id"] :: [tally 1] :: (if decide (3 ≤ n) then [[tally 2]] else [])))
    None.

(** What the specification claims of the scroll loop: when the totals grow
    in each of the first K rounds and not after, the loop makes K +
    idle_threshold rounds, no more and no fewer. *)
Definition scroll_ends_at_idle_threshold : Prop :=
  ∀ (world : Type) (snapshot : world → page) (react : action → world → world)
    (idle_threshold : nat) (w : world) (K : nat),
    has_next_page (snapshot w) = false →
    1 ≤ idle_threshold → 1 ≤ K →
    (∀ r, 1 ≤ r < K →
       harvest_round_total snapshot react w r
       < harvest_round_total snapshot react w (r + 1)) →
    (∀ r, K ≤ r →
       harvest_round_total snapshot react w (r + 1)
       = harvest_round_total snapshot react w r) →
    harvest_scroll_rounds snapshot react idle_threshold w = K + idle_threshold.

(** A grid whose header cells carry [role=columnheader] in a header strip
    that is not a [tr], above two data rows. *)
Definition grid_table : located :=
  Located []
    (Elem Ttable None
       [ Elem Tother (Some "row")
           [ Elem Tother (Some "columnheader") [Text "name"];
             Elem Tother (Some "columnheader") [Text "price"] ];
         Elem Ttbody None [tr_of Ttd ["A"; "1"]; tr_of Ttd ["B"; "2"]] ]).
Definition grid_page : page := Page None (Some (grid_table, true)) None (λ _, false).

(** A grid whose header cells carry [role=columnheader] and no text. *)
Definition blank_grid_table : located :=
  Located []
    (Elem Ttable None
       [ Elem Tother (Some "row")
           [ Elem Tother (Some "columnheader") [Text " "];
             Elem Tother (Some "columnheader") [] ];
         Elem Ttbody None [tr_of Ttd ["A"; "1"]; tr_of Ttd ["B"; "2"]] ]).

(** What is claimed of every table with one header row in [thead], read as
    the headers, and n data rows in [tbody]: at most n-1 rows are
    returned. *)
Definition thead_rows_lose_last : Prop :=
  ∀ (head_role : option string) (hs : list string) (rows : list (list string)),
    hs ≠ [] →
    (read_headers (Located [] (thead_table head_role hs rows))).1 = header_keys hs →
    length (extract_table_rows (page_of [] (thead_table head_role hs rows) None))
    ≤ length rows - 1.

(** A table without header area. *)
Definition headless_table : located :=
  Located [] (bare_table [["name"; "price"]; ["A"; "1"]; ["B"; "2"]]).
Definition headless_page : page :=
  Page None (Some (headless_table, true)) None (λ _, false).

(** [d.get(k)] *)
Fixpoint dict_get (k : string) (d : row) : option string :=
  match d with
  | [] => None
  | (k', v) :: d' => if decide (k = k') then Some v else dict_get k d'
  end.

(* ===================================================================== *)
(** ** Trimmed strings, and reading a JSON string back *)
(* ===================================================================== *)

Definition head_char (s : string) : option ascii :=
  match s with
  | EmptyString => None
  | String c _ => Some c
  end.

Fixpoint last_char (s : string) : option ascii :=
  match s with
  | EmptyString => None
  | String c s' =>
      match s' with
      | EmptyString => Some c
      | String _ _ => last_char s'
      end
  end.

(** A string that neither starts nor ends with white space. *)
Definition trimmed (s : string) : Prop :=
  (∀ c, head_char s = Some c → PyStr.isspace c = false)
  ∧ (∀ c, last_char s = Some c → PyStr.isspace c = false).

(** The value of a lower-case hexadecimal digit. *)
Definition hex_value (c : ascii) : N :=
  let n := N_of_ascii c in
  (if n <? 58 then n - 48 else n - 87)%N.

(** The first character of the text whose JSON escape starts [s], and what
    follows that escape: the inverse of [Json.escape_char] on the front of a
    string. A bare double quote is no escape. *)
Definition unescape_head (s : string) : option (ascii * string) :=
  match s with
  | EmptyString => None
  | String c rest =>
      if bool_decide (c = Json.backslash) then
        match rest with
        | EmptyString => None
        | String e rest' =>
            if bool_decide (e = Json.dquote) then Some (Json.dquote, rest')
            else if bool_decide (e = Json.backslash) then Some (Json.backslash, rest')
            else if bool_decide (e = "n"%char) then Some (ascii_of_nat 10, rest')
            else if bool_decide (e = "r"%char) then Some (ascii_of_nat 13, rest')
            else if bool_decide (e = "t"%char) then Some (ascii_of_nat 9, rest')
            else if bool_decide (e = "b"%char) then Some (ascii_of_nat 8, rest')
            else if bool_decide (e = "f"%char) then Some (ascii_of_nat 12, rest')
            else if bool_decide (e = "u"%char) then
              match rest' with
              | String _ (String _ (String h (String l rest''))) =>
                  Some (ascii_of_N (16 * hex_value h + hex_value l), rest'')
              | _ => None
              end
            else None
        end
      else if bool_decide (c = Json.dquote) then None
      else Some (c, rest)
  end.

(* ===================================================================== *)
(** ** The pages of a paginated harvest *)
(* ===================================================================== *)

(** The calls of [n] turns of the pagination loop. *)
Definition turn_events (n : nat) : list event :=
  concat (replicate n [EvProbe true; EvAdvance; EvRead]).

Section Pages.

Context {world : Type}.
Variable snapshot : world → page.
Variable react : action → world → world.

(** The rows read on the pages [from] to [from + n - 1], page after page. *)
Definition pages_rows (w : world) (from n : nat) : list row :=
  concat ((λ k, extract_table_rows (snapshot (clicked react k w))) <$> seq from n).

(** A row that [extract_table_rows] reads in some state of the application. *)
Definition read_somewhere (r : row) : Prop :=
  ∃ w : world, r ∈ extract_table_rows (snapshot w).

End Pages.

(** A page that always shows one row and an enabled "next" button. *)
Definition endless_page (n : nat) : page :=
  page_of [] (bare_table [["name"]; ["A"]]) enabled_next.

(* ===================================================================== *)
(** ** [complete_wizard] *)
(* ===================================================================== *)

Definition WIZARD_STEP_LABELS : list string :=
  [ "Select Data Source"; "Choose Category"; "Select View Type"; "View Products" ].

(** How a run of the wizard ends: all clicks made, or the exception of
    [smart_click] in step [i]. *)
Inductive wizard_outcome (world : Type) : Type :=
  | WizardDone (w : world)
  | WizardRaised (i : nat) (w : world).

Arguments WizardDone {world} w.
Arguments WizardRaised {world} i w.

Section Wizard.

Context {world : Type}.

(** [label_visible l w]: the answer of [is_visible] for the step label [l],
    [None] when the call raises. *)
Variable label_visible : string → world → option bool.

(** Whether the "Next" button becomes visible within the timeout of
    [smart_click], and the application after the click and the waits. *)
Variable next_visible : world → bool.
Variable press_next : world → world.

(** The look for the step label: whatever it finds, and also when it raises,
    the wizard goes on. *)
Definition probe_step_label (i : nat) (w : world) : unit :=
  match WIZARD_STEP_LABELS !! i with
  | Some step_label =>
      match label_visible step_label w with
      | Some true => tt
      | Some false => tt
      | None => tt
      end
  | None => tt
  end.

(** [smart_click(page, next_selector)]: [None] when [expect(...)] raises. *)
Definition smart_click (w : world) : option world :=
  if next_visible w then Some (press_next w) else None.

(** The loop [for i in range(clicks)], from step [i] on. *)
Fixpoint wizard_loop (i remaining : nat) (w : world) : wizard_outcome world :=
  match remaining with
  | 0 => WizardDone w
  | S remaining' =>
      match probe_step_label i w with
      | tt =>
          match smart_click w with
          | Some w' => wizard_loop (S i) remaining' w'
          | None => WizardRaised i w
          end
      end
  end.

(** [complete_wizard(page, clicks=clicks)]; [range] of a negative number is
    empty. *)
Definition complete_wizard (clicks : Z) (w : world) : wizard_outcome world :=
  wizard_loop 0 (Z.to_nat clicks) w.

End Wizard.

(* ===================================================================== *)
(** * Properties *)
(* ===================================================================== *)

Section Accumulator.

Implicit Types (a : accum) (r : row) (rs : list row).

Lemma add_rows_cons r rs a :
  (add_rows (r :: rs) a).2 = (add_rows rs (add_row a r)).2.
Proof. done. Qed.

Lemma add_row_old a r :
  fingerprint r ∈ seen_hashes a → add_row a r = a.
Proof. intros Hin. unfold add_row. by rewrite decide_True. Qed.

Lemma add_row_new a r :
  fingerprint r ∉ seen_hashes a →
  add_row a r = Accum (all_rows a ++ [r]) ({[fingerprint r]} ∪ seen_hashes a).
Proof. intros Hin. unfold add_row. by rewrite decide_False. Qed.

Lemma add_row_records a r : fingerprint r ∈ seen_hashes (add_row a r).
Proof.
  destruct (decide (fingerprint r ∈ seen_hashes a)) as [Hin|Hin].
  - by rewrite add_row_old.
  - rewrite add_row_new by done. simpl. set_solver.
Qed.

Lemma add_row_keeps a r h :
  h ∈ seen_hashes a → h ∈ seen_hashes (add_row a r).
Proof.
  intros Hh. destruct (decide (fingerprint r ∈ seen_hashes a)) as [Hin|Hin].
  - by rewrite add_row_old.
  - rewrite add_row_new by done. simpl. set_solver.
Qed.

Lemma add_rows_keeps rs a h :
  h ∈ seen_hashes a → h ∈ seen_hashes (add_rows rs a).2.
Proof.
  revert a. induction rs as [|r rs IH]; intros a Hh; [done|].
  rewrite add_rows_cons. by apply IH, add_row_keeps.
Qed.

Lemma add_rows_records rs a r :
  r ∈ rs → fingerprint r ∈ seen_hashes (add_rows rs a).2.
Proof.
  revert a. induction rs as [|r' rs IH]; intros a Hr; [by inv Hr|].
  rewrite add_rows_cons. apply elem_of_cons in Hr as [->|Hr].
  - apply add_rows_keeps, add_row_records.
  - by apply IH.
Qed.

Lemma add_rows_all_seen rs a :
  (∀ r, r ∈ rs → fingerprint r ∈ seen_hashes a) → (add_rows rs a).2 = a.
Proof.
  revert a. induction rs as [|r rs IH]; intros a Hall; [done|].
  rewrite add_rows_cons, add_row_old by (apply Hall; left).
  apply IH. intros r' Hr'. apply Hall. by right.
Qed.

Lemma add_row_ok a r : accum_ok a → accum_ok (add_row a r).
Proof.
  intros [Hseen Hnd].
  destruct (decide (fingerprint r ∈ seen_hashes a)) as [Hin|Hin].
  - by rewrite add_row_old.
  - rewrite add_row_new by done. split; simpl.
    + rewrite fmap_app, list_to_set_app_L, <-Hseen. simpl.
      rewrite (right_id_L ∅ (∪)). apply (comm_L (∪)).
    + rewrite fmap_app. apply NoDup_app. split_and!; [done| |].
      * intros h Hh ->%list_elem_of_singleton.
        apply Hin. rewrite Hseen. by apply elem_of_list_to_set.
      * apply NoDup_singleton.
Qed.

Lemma add_rows_ok rs a : accum_ok a → accum_ok (add_rows rs a).2.
Proof.
  revert a. induction rs as [|r rs IH]; intros a Hok; [done|].
  rewrite add_rows_cons. by apply IH, add_row_ok.
Qed.

Lemma empty_accum_ok : accum_ok empty_accum.
Proof. split; simpl; [done|constructor]. Qed.

Lemma merge_all_snoc batches rs :
  merge_all (batches ++ [rs]) = (add_rows rs (merge_all batches)).2.
Proof. unfold merge_all. by rewrite foldl_app. Qed.

Lemma merge_all_ok batches : accum_ok (merge_all batches).
Proof.
  induction batches as [|rs batches IH] using rev_ind.
  - apply empty_accum_ok.
  - rewrite merge_all_snoc. by apply add_rows_ok.
Qed.

(** What one merge appends: a subsequence of the incoming rows that holds
    the first occurrence of every fingerprint not seen before. *)
Lemma add_rows_appends rs a :
  ∃ added,
    all_rows (add_rows rs a).2 = all_rows a ++ added
    ∧ added `sublist_of` rs
    ∧ ∀ pre r post,
        rs = pre ++ r :: post →
        fingerprint r ∉ seen_hashes a →
        fingerprint r ∉ fingerprint <$> pre →
        r ∈ added.
Proof.
  revert a. induction rs as [|r0 rs IH]; intros a.
  { exists []. split_and!; [by rewrite app_nil_r|done|].
    intros [|??] ?? ?; discriminate. }
  rewrite add_rows_cons.
  destruct (IH (add_row a r0)) as (added & Hrows & Hsub & Hfirst).
  rewrite Hrows. clear IH Hrows.
  destruct (decide (fingerprint r0 ∈ seen_hashes a)) as [Hin|Hin].
  - rewrite add_row_old in Hfirst |- * by done.
    exists added. split_and!; [done|by apply sublist_cons|].
    intros [|p pre] r post Heq Hnew Hpre; simplify_eq/=.
    + done.
    + apply (Hfirst pre r post); [done..|].
      intros ?. apply Hpre. by right.
  - rewrite add_row_new in Hfirst |- * by done. simpl in *.
    exists (r0 :: added). split_and!.
    + by rewrite <-app_assoc.
    + by apply sublist_skip.
    + intros [|p pre] r post Heq Hnew Hpre; simplify_eq/=; [by left|].
      right. apply (Hfirst pre r post); [done| |].
      * intros [Hfp%elem_of_singleton|?]%elem_of_union; [|done].
        apply Hpre. rewrite Hfp. by left.
      * intros ?. apply Hpre. by right.
Qed.

(** The growth of the row list in one merge, counted on fingerprints. *)
Lemma add_rows_growth rs a :
  length (all_rows (add_rows rs a).2) =
  length (all_rows a)
  + size ((list_to_set (fingerprint <$> rs) : gset string) ∖ seen_hashes a).
Proof.
  revert a. induction rs as [|r rs IH]; intros a.
  { simpl. assert ((∅ : gset string) ∖ seen_hashes a = ∅) as -> by set_solver.
    rewrite size_empty. lia. }
  rewrite add_rows_cons, IH, fmap_cons, list_to_set_cons.
  set (new := list_to_set (fingerprint <$> rs) : gset string).
  destruct (decide (fingerprint r ∈ seen_hashes a)) as [Hin|Hin].
  - rewrite add_row_old by done. do 2 f_equal. set_solver.
  - rewrite add_row_new by done. cbn [all_rows seen_hashes].
    rewrite length_app. cbn [length].
    assert (({[fingerprint r]} ∪ new) ∖ seen_hashes a
            = {[fingerprint r]} ∪ new ∖ ({[fingerprint r]} ∪ seen_hashes a))
      as ->.
    { apply set_eq. intros h.
      destruct (decide (h = fingerprint r)) as [->|]; set_solver. }
    rewrite (size_union (C:=gset string) {[fingerprint r]}
               (new ∖ ({[fingerprint r]} ∪ seen_hashes a))) by set_solver.
    rewrite size_singleton. lia.
Qed.

End Accumulator.

(* ===================================================================== *)
(** ** First-seen order *)
(* ===================================================================== *)

Section FirstSeen.

Implicit Types (a : accum) (r : row) (rs earlier stream : list row).

Lemma first_seen_from_cons earlier r rs :
  first_seen_from earlier (r :: rs)
  = (if decide (fingerprint r ∈ fingerprint <$> earlier) then [] else [r])
    ++ first_seen_from (earlier ++ [r]) rs.
Proof.
  unfold first_seen_from. rewrite imap_cons. cbn [concat take].
  rewrite app_nil_r. f_equal. f_equal. apply imap_ext. intros i x _. cbn.
  by rewrite <-app_assoc.
Qed.

Lemma first_seen_from_app earlier rs1 rs2 :
  first_seen_from earlier (rs1 ++ rs2)
  = first_seen_from earlier rs1 ++ first_seen_from (earlier ++ rs1) rs2.
Proof.
  revert earlier. induction rs1 as [|r rs1 IH]; intros earlier.
  { by rewrite app_nil_r. }
  rewrite <-app_comm_cons, !first_seen_from_cons, IH, <-!app_assoc. done.
Qed.

Lemma first_seen_from_sublist earlier rs :
  first_seen_from earlier rs `sublist_of` rs.
Proof.
  revert earlier. induction rs as [|r rs IH]; intros earlier; [done|].
  rewrite first_seen_from_cons. case_decide.
  - apply sublist_cons, IH.
  - apply sublist_skip, IH.
Qed.

(** A merge appends the incoming rows in first-seen order. *)
Lemma add_rows_first_seen rs : ∀ a earlier,
  (∀ h, h ∈ seen_hashes a ↔ h ∈ fingerprint <$> earlier) →
  all_rows (add_rows rs a).2 = all_rows a ++ first_seen_from earlier rs
  ∧ ∀ h, h ∈ seen_hashes (add_rows rs a).2 ↔ h ∈ fingerprint <$> (earlier ++ rs).
Proof.
  induction rs as [|r rs IH]; intros a earlier Hseen.
  { cbn. rewrite !app_nil_r. done. }
  rewrite add_rows_cons, first_seen_from_cons.
  replace (earlier ++ r :: rs) with ((earlier ++ [r]) ++ rs)
    by (by rewrite <-app_assoc).
  destruct (decide (fingerprint r ∈ seen_hashes a)) as [Hold|Hnew].
  - rewrite add_row_old by done.
    rewrite decide_True by (by apply Hseen).
    apply IH. intros h. rewrite fmap_app, elem_of_app, <-Hseen.
    cbn. rewrite list_elem_of_singleton. split; [by left|].
    by intros [?| ->].
  - rewrite add_row_new by done.
    rewrite decide_False by (by rewrite <-Hseen).
    destruct (IH (Accum (all_rows a ++ [r]) ({[fingerprint r]} ∪ seen_hashes a))
                 (earlier ++ [r])) as [Hrows Hset].
    { intros h. cbn [seen_hashes].
      rewrite fmap_app, elem_of_app, <-Hseen, elem_of_union, elem_of_singleton.
      cbn. rewrite list_elem_of_singleton. tauto. }
    split; [|done]. rewrite Hrows. cbn [all_rows]. by rewrite <-app_assoc.
Qed.

(** The accumulated rows are the rows of all the batches so far, in
    first-seen order. *)
Lemma merge_all_first_seen batches :
  all_rows (merge_all batches) = first_seen (concat batches)
  ∧ ∀ h, h ∈ seen_hashes (merge_all batches)
         ↔ h ∈ fingerprint <$> concat batches.
Proof.
  induction batches as [|rs batches [IHrows IHseen]] using rev_ind.
  { split; [done|]. intros h. cbn. set_solver. }
  rewrite merge_all_snoc, concat_app. cbn [concat]. rewrite app_nil_r.
  destruct (add_rows_first_seen rs (merge_all batches) (concat batches) IHseen)
    as [Hrows Hseen].
  split; [|done]. rewrite Hrows, IHrows. unfold first_seen.
  by rewrite first_seen_from_app.
Qed.

End FirstSeen.

(* ===================================================================== *)
(** ** The fingerprint does not depend on the insertion order *)
(* ===================================================================== *)

Section Fingerprint.

Lemma item_le_trans : Transitive Json.item_le.
Proof. intros x y z. unfold Json.item_le. apply transitivity. Qed.

Lemma item_le_total : Total Json.item_le.
Proof. intros x y. unfold Json.item_le. apply total, _. Qed.

#[local] Existing Instances item_le_trans item_le_total.

Lemma unique_keys_value (d : row) k v1 v2 :
  NoDup d.*1 → (k, v1) ∈ d → (k, v2) ∈ d → v1 = v2.
Proof.
  induction d as [|[k' v'] d IH]; intros Hnd H1 H2; [by inv H1|].
  apply NoDup_cons in Hnd as [Hk Hnd].
  assert (∀ v, (k', v) ∈ d → False) as Hfresh.
  { intros v Hv. apply Hk. by apply (list_elem_of_fmap_2 fst) in Hv. }
  apply elem_of_cons in H1 as [?|H1]; apply elem_of_cons in H2 as [?|H2];
    simplify_eq; try done; try (by exfalso; eauto).
  by apply IH.
Qed.

Lemma sorted_items_unique (d1 d2 : row) :
  NoDup d1.*1 → d1 ≡ₚ d2 →
  merge_sort Json.item_le d1 = merge_sort Json.item_le d2.
Proof.
  intros Hnd Hperm.
  apply (Sorted_unique_strong Json.item_le).
  - intros [k1 v1] [k2 v2] H1 H2 Hle1 Hle2.
    rewrite merge_sort_Permutation in H1.
    rewrite merge_sort_Permutation, <-Hperm in H2.
    assert (k1 = k2) as <- by (by apply (anti_symm String.le)).
    f_equal. by apply (unique_keys_value d1 k1).
  - apply Sorted_merge_sort, _.
  - apply Sorted_merge_sort, _.
  - by rewrite !merge_sort_Permutation.
Qed.

Lemma fingerprint_permutation (d1 d2 : row) :
  NoDup d1.*1 → d1 ≡ₚ d2 → fingerprint d1 = fingerprint d2.
Proof.
  intros Hnd Hperm. unfold fingerprint, Json.dumps_sorted.
  by rewrite (sorted_items_unique d1 d2).
Qed.

End Fingerprint.

(* ===================================================================== *)
(** ** Rows against headers *)
(* ===================================================================== *)

Section Rows.

Implicit Types (headers cells : list string) (d : row).

Lemma dict_set_fresh k v d : k ∉ d.*1 → dict_set k v d = d ++ [(k, v)].
Proof.
  induction d as [|[k' v'] d IH]; intros Hk; [done|]. simpl in *.
  apply not_elem_of_cons in Hk as [Hne Hk].
  rewrite decide_False by done. by rewrite IH.
Qed.

Lemma dict_set_length k v d : length (dict_set k v d) ≤ S (length d).
Proof.
  induction d as [|[k' v'] d IH]; simpl; [lia|].
  case_decide; simpl; lia.
Qed.

Lemma foldl_dict_set_fresh items d :
  NoDup (d.*1 ++ items.*1) →
  foldl (λ d kv, dict_set kv.1 kv.2 d) d items = d ++ items.
Proof.
  revert d. induction items as [|[k v] items IH]; intros d Hnd; simpl.
  { by rewrite app_nil_r. }
  simpl in Hnd. rewrite dict_set_fresh.
  - rewrite IH; [by rewrite <-app_assoc|].
    rewrite fmap_app. simpl. by rewrite <-app_assoc.
  - apply NoDup_app in Hnd as (_ & Hdisj & _).
    intros Hk. apply (Hdisj k Hk). by left.
Qed.

(** With pairwise distinct keys the comprehension keeps every pair. *)
Lemma dict_of_items_distinct items :
  NoDup items.*1 → dict_of_items items = items.
Proof. intros Hnd. unfold dict_of_items. by rewrite foldl_dict_set_fresh. Qed.

Lemma foldl_dict_set_length items d :
  length (foldl (λ d kv, dict_set kv.1 kv.2 d) d items)
  ≤ length d + length items.
Proof.
  revert d. induction items as [|kv items IH]; intros d; simpl; [lia|].
  etrans; [apply IH|]. pose proof (dict_set_length kv.1 kv.2 d). lia.
Qed.

(** In general a repeated key is stored once. *)
Lemma dict_of_items_length items :
  dict_len (dict_of_items items) ≤ length items.
Proof. apply (foldl_dict_set_length items []). Qed.

Lemma normalize_length headers cells :
  headers ≠ [] → length (normalize headers cells) = length headers.
Proof.
  intros Hne. unfold normalize. destruct headers as [|h hs]; [done|].
  repeat case_decide.
  - rewrite length_app, length_replicate. lia.
  - rewrite length_take. lia.
  - lia.
Qed.

(** Padding adds empty values at the end, truncation drops the cells past
    the last header: under a header the value is the stripped cell in that
    column, or the empty string when the row has no such cell. *)
Lemma cell_at_normalize headers cells i :
  i < length headers →
  cell_at (normalize headers cells) i = cell_at cells i.
Proof.
  intros Hi. unfold normalize, cell_at. destruct headers as [|h hs]; [done|].
  repeat case_decide; [| |done].
  - destruct (decide (i < length cells)) as [Hlt|Hge].
    + by rewrite lookup_app_l.
    + rewrite lookup_app_r by lia.
      rewrite lookup_replicate_2 by lia.
      by rewrite (lookup_ge_None_2 cells i) by lia.
  - by rewrite lookup_take_lt.
Qed.

Lemma imap_pairs {A} (f : nat → A) headers :
  imap (λ i h, (h, f i)) headers = zip headers (f <$> seq 0 (length headers)).
Proof.
  revert f. induction headers as [|h hs IH]; intros f; [done|].
  rewrite imap_cons. cbn [length seq fmap list_fmap zip zip_with].
  f_equal. rewrite <-fmap_S_seq, <-list_fmap_compose. apply (IH (f ∘ S)).
Qed.

Lemma make_row_distinct headers cells :
  headers ≠ [] → NoDup headers →
  make_row headers cells
  = zip headers (cell_at cells <$> seq 0 (length headers)).
Proof.
  intros Hne Hnd. unfold make_row, build_row.
  destruct headers as [|h hs] eqn:Hh; [done|]. rewrite <-Hh in *. clear Hh.
  rewrite imap_pairs. rewrite dict_of_items_distinct.
  - f_equal. apply list_fmap_ext. intros i j Hj.
    apply lookup_seq in Hj as [-> ?]. by apply cell_at_normalize.
  - rewrite fst_zip; [done|]. rewrite length_fmap, length_seq. lia.
Qed.

Lemma make_row_length_le headers cells :
  headers ≠ [] → dict_len (make_row headers cells) ≤ length headers.
Proof.
  intros Hne. unfold make_row, build_row.
  destruct headers as [|h hs] eqn:Hh; [done|]. rewrite <-Hh in *. clear Hh.
  etrans; [apply dict_of_items_length|]. by rewrite length_imap.
Qed.

Lemma elem_of_table_rows table r :
  r ∈ table_rows table →
  ∃ i, (read_headers table).2 ≤ i < read_row_count table
       ∧ r = make_row (read_headers table).1 (read_cells table i).
Proof.
  unfold table_rows. destruct (read_headers table) as [headers start].
  intros (i & -> & Hi)%list_elem_of_fmap. exists i. split; [|done].
  apply elem_of_seq in Hi. simpl. lia.
Qed.

Lemma read_headers_start table : (read_headers table).2 = 1.
Proof. unfold read_headers. by destruct (header_keys (header_area table)). Qed.

Lemma table_rows_unfold table :
  table_rows table
  = (λ r, make_row (read_headers table).1 (read_cells table r))
      <$> seq 1 (read_row_count table - 1).
Proof.
  unfold table_rows. pose proof (read_headers_start table) as Hs.
  destruct (read_headers table) as [headers start]. simpl in *. by subst.
Qed.

End Rows.

(* ===================================================================== *)
(** ** Locators on concrete table shapes *)
(* ===================================================================== *)

Section Locators.

Implicit Types (anc : list hdr) (s : selector) (l : located).

Lemma append_empty_r (x : string) : x +:+ "" = x.
Proof.
  induction x as [|c x IH]; [done|].
  change (String c (x +:+ "") = String c x). by rewrite IH.
Qed.

Lemma elems_unfold anc t r kids :
  elems anc (Elem t r kids)
  = Located anc (Elem t r kids) :: (kids ≫= elems ((t, r) :: anc)).
Proof.
  (* the inner loop of [elems] is the list bind *)
  reflexivity.
Qed.

Lemma filter_bind {A B} (P : B → Prop) `{!∀ x, Decision (P x)}
    (f : A → list B) (xs : list A) :
  filter P (xs ≫= f) = xs ≫= (λ x, filter P (f x)).
Proof.
  induction xs as [|x xs IH]; [done|].
  cbn. by rewrite filter_app, IH.
Qed.

Lemma filter_fmap_all {A B} (P : B → Prop) `{!∀ x, Decision (P x)}
    (f : A → B) (xs : list A) :
  (∀ x, P (f x)) → filter P (f <$> xs) = f <$> xs.
Proof.
  intros HP. induction xs as [|x xs IH]; [done|].
  rewrite fmap_cons, filter_cons_True by done. by rewrite IH.
Qed.

Lemma filter_fmap_none {A B} (P : B → Prop) `{!∀ x, Decision (P x)}
    (f : A → B) (xs : list A) :
  (∀ x, ¬ P (f x)) → filter P (f <$> xs) = [].
Proof.
  intros HP. induction xs as [|x xs IH]; [done|].
  rewrite fmap_cons, filter_cons_False by done. by rewrite IH.
Qed.

Lemma bind_singleton {A B} (f : A → B) (xs : list A) :
  xs ≫= (λ x, [f x]) = f <$> xs.
Proof. induction xs as [|x xs IH]; [done|]. cbn. by rewrite IH. Qed.

Lemma bind_nil {A B} (xs : list A) : xs ≫= (λ _, @nil B) = [].
Proof. induction xs as [|x xs IH]; [done|]. cbn. by rewrite IH. Qed.

(** The elements of a row of text cells. *)
Lemma elems_tr_of anc c cells :
  elems anc (tr_of c cells)
  = Located anc (tr_of c cells)
    :: ((λ x, Located ((Ttr, None) :: anc) (txt c x)) <$> cells).
Proof.
  unfold tr_of. rewrite elems_unfold. f_equal.
  induction cells as [|x cells IH]; [done|]. cbn. by rewrite <-IH.
Qed.

(** Both row locators of the function match every [tr], so the row read
    at index 0 for the header fallback is the row at index 0 of the loop. *)
Lemma all_rows_are_tr l : matches SEL_ALL_ROWS l = matches SEL_TR l.
Proof.
  unfold matches, SEL_ALL_ROWS, SEL_TR, matches_complex.
  cbn -[matches_ancestors matches_compound].
  destruct (node_hdr (loc_elt l)) as [h|]; [|done].
  change (matches_ancestors [] (loc_anc l)) with true.
  by destruct (matches_compound (by_tag Ttr) h),
              (matches_ancestors [by_tag Ttbody] (loc_anc l)).
Qed.

Lemma locator_all_rows table :
  locator (Some table) SEL_ALL_ROWS = locator (Some table) SEL_TR.
Proof.
  unfold locator. apply list_filter_iff. intros l. by rewrite all_rows_are_tr.
Qed.

Lemma first_row_is_row_0 table : first_row_cells table = read_cells table 0.
Proof. unfold first_row_cells, read_cells. by rewrite locator_all_rows. Qed.

(** The cell texts of a row of [th] or [td] cells. *)
Lemma cells_of_tr anc c cells :
  c = Tth ∨ c = Ttd →
  all_text_contents (locator (Some (Located anc (tr_of c cells))) SEL_CELLS)
  = cells.
Proof.
  intros Hc. unfold locator, descendants. cbn [loc_anc loc_elt].
  rewrite elems_tr_of. cbn [tail].
  rewrite filter_fmap_all by (by intros x; destruct Hc as [-> | ->]).
  unfold all_text_contents. rewrite <-list_fmap_compose.
  rewrite <-(list_fmap_id cells) at 2. apply list_fmap_ext.
  intros i x _. cbn. apply append_empty_r.
Qed.

(** The elements of a row of text cells whose [tr] carries a role. *)
Lemma elems_row anc r c cells :
  elems anc (Elem Ttr r (txt c <$> cells))
  = Located anc (Elem Ttr r (txt c <$> cells))
    :: ((λ x, Located ((Ttr, r) :: anc) (txt c x)) <$> cells).
Proof.
  rewrite elems_unfold. f_equal.
  induction cells as [|x cells IH]; [done|]. cbn. by rewrite <-IH.
Qed.

(** [tbody] as an ancestor selector looks for a [tbody] among all the
    ancestors. *)
Lemma tbody_above anc :
  matches_ancestors [by_tag Ttbody] anc
  = existsb (λ h : hdr, bool_decide (h.1 = Ttbody)) anc.
Proof.
  induction anc as [|[t r] anc IH]; [done|].
  cbn [matches_ancestors existsb]. rewrite <-IH.
  unfold matches_compound. cbn [sel_tag sel_role by_tag fst].
  by destruct (bool_decide (t = Ttbody)).
Qed.

End Locators.

(** The table with a header row in [thead]: what each locator of
    [extract_table_rows] finds in it. *)
Section TheadTable.

Variable anc : list hdr.
Variable head_role : option string.
Variable hs : list string.
Variable rows : list (list string).

Hypothesis head_row_no_header_cell : head_role ≠ Some "columnheader".

#[local] Abbreviation table := (Located anc (thead_table head_role hs rows)).
#[local] Abbreviation in_table := ((Ttable, None) :: anc).
#[local] Abbreviation in_thead := ((Tthead, None) :: (Ttable, None) :: anc).
#[local] Abbreviation in_tbody := ((Ttbody, None) :: (Ttable, None) :: anc).
#[local] Abbreviation head_row := (thead_head_row anc head_role hs).
#[local] Abbreviation head_cell := (thead_head_cell anc head_role).
#[local] Abbreviation plain_body_row := (plain_body_row anc).
#[local] Abbreviation plain_body_cell := (plain_body_cell anc).
#[local] Abbreviation counted := (header_row_counted anc head_role).

Lemma thead_descendants :
  descendants table
  = Located in_table (Elem Tthead None [Elem Ttr head_role (txt Tth <$> hs)])
    :: head_row :: (head_cell <$> hs)
    ++ Located in_table (Elem Ttbody None (tr_of Ttd <$> rows))
    :: (rows ≫= λ cells, plain_body_row cells :: (plain_body_cell <$> cells)).
Proof.
  unfold descendants, thead_table. cbn [loc_anc loc_elt].
  rewrite elems_unfold. cbn [tail mbind list_bind].
  rewrite !elems_unfold. cbn [mbind list_bind]. rewrite !app_nil_r.
  rewrite elems_row. cbn [app]. do 2 f_equal. f_equal. f_equal.
  induction rows as [|cells rows' IH]; [done|].
  cbn [fmap list_fmap mbind list_bind]. rewrite elems_tr_of.
  f_equal. apply IH.
Qed.

Ltac keep := rewrite filter_cons_True by reflexivity.
Ltac skip := rewrite filter_cons_False by (intros Hm; vm_compute in Hm; discriminate).

Lemma head_row_is_no_cell : matches SEL_HEADER_CELLS head_row = false.
Proof.
  unfold matches, SEL_HEADER_CELLS, matches_complex, thead_head_row.
  cbn -[matches_ancestors]. by rewrite bool_decide_eq_false_2.
Qed.

Lemma thead_header_area : header_area table = hs.
Proof.
  unfold header_area, locator. rewrite thead_descendants.
  skip. rewrite filter_cons_False by (by rewrite head_row_is_no_cell).
  rewrite filter_app. rewrite filter_fmap_all by reflexivity.
  skip. rewrite filter_bind.
  erewrite (list_bind_ext _ (λ _, [])); [|intros cells|reflexivity].
  2:{ skip. apply filter_fmap_none. intros x Hm. vm_compute in Hm. discriminate. }
  rewrite bind_nil, app_nil_r.
  unfold all_text_contents. rewrite <-list_fmap_compose.
  rewrite <-(list_fmap_id hs) at 2. apply list_fmap_ext.
  intros i x _. cbn. apply append_empty_r.
Qed.

(** The header row is counted as a body row exactly when it carries
    [role=row] or the table sits inside a [tbody]. *)
Lemma head_row_counted : matches SEL_BODY_ROWS head_row = counted.
Proof.
  unfold matches, SEL_BODY_ROWS, matches_complex, thead_head_row,
    header_row_counted.
  rewrite <-tbody_above. cbn -[matches_ancestors].
  change (matches_ancestors [by_tag Ttbody] in_thead)
    with (matches_ancestors [by_tag Ttbody] anc).
  change (matches_compound (by_tag Ttr) (Ttr, head_role)) with true.
  change (matches_compound (by_tag_role Ttr "row") (Ttr, head_role))
    with (bool_decide (head_role = Some "row")).
  by destruct (bool_decide (head_role = Some "row")),
              (matches_ancestors [by_tag Ttbody] anc).
Qed.

Lemma body_bind_rows (s : selector) :
  (∀ cells, matches s (plain_body_row cells) = true) →
  (∀ x, matches s (plain_body_cell x) = false) →
  filter (λ d, matches s d = true)
    (rows ≫= λ cells, plain_body_row cells :: (plain_body_cell <$> cells))
  = plain_body_row <$> rows.
Proof.
  intros Hrow Hcell. rewrite filter_bind, <-bind_singleton.
  apply list_bind_ext; [|done]. intros cells.
  rewrite filter_cons_True by apply Hrow. f_equal.
  apply filter_fmap_none. intros x. by rewrite Hcell.
Qed.

Lemma thead_body_rows :
  locator (Some table) SEL_BODY_ROWS
  = (if counted then [head_row] else []) ++ (plain_body_row <$> rows).
Proof.
  unfold locator. rewrite thead_descendants.
  skip.
  assert (filter (λ d, matches SEL_BODY_ROWS d = true)
            ((head_cell <$> hs)
             ++ Located in_table (Elem Ttbody None (tr_of Ttd <$> rows))
             :: (rows ≫= λ cells, plain_body_row cells :: (plain_body_cell <$> cells)))
          = plain_body_row <$> rows) as Hrest.
  { rewrite filter_app, filter_fmap_none
      by (intros x Hm; vm_compute in Hm; discriminate).
    skip. by rewrite body_bind_rows. }
  destruct counted eqn:Hc.
  - rewrite filter_cons_True by (by rewrite head_row_counted). by rewrite Hrest.
  - rewrite filter_cons_False by (by rewrite head_row_counted, Hc). by rewrite Hrest.
Qed.

Lemma thead_all_rows :
  locator (Some table) SEL_ALL_ROWS
  = head_row :: (plain_body_row <$> rows).
Proof.
  unfold locator. rewrite thead_descendants.
  skip. rewrite filter_cons_True by (by rewrite all_rows_are_tr). f_equal.
  rewrite filter_app, filter_fmap_none
    by (intros x Hm; vm_compute in Hm; discriminate).
  skip. by rewrite body_bind_rows.
Qed.

Lemma thead_row_count :
  read_row_count table
  = if counted then S (length rows)
    else if decide (rows = []) then 1 else length rows.
Proof.
  unfold read_row_count.
  rewrite <-locator_all_rows, thead_body_rows, thead_all_rows.
  unfold loc_count. rewrite length_app. cbn [length]. rewrite !length_fmap.
  destruct counted; [done|]. destruct rows; by repeat case_decide.
Qed.

Lemma thead_read_cells (i : nat) (cells : list string) :
  rows !! i = Some cells → read_cells table (S i) = cells.
Proof.
  intros Hi. unfold read_cells, loc_nth. rewrite thead_all_rows.
  change ((head_row :: (plain_body_row <$> rows)) !! S i)
    with ((plain_body_row <$> rows) !! i).
  rewrite list_lookup_fmap, Hi.
  apply cells_of_tr. by right.
Qed.

Lemma thead_headers :
  hs ≠ [] → read_headers table = (header_keys hs, 1).
Proof.
  intros Hne. unfold read_headers. rewrite thead_header_area.
  destruct hs; [done|]. done.
Qed.

(** The rows read from the table: all the data rows when the header row is
    counted, and all but the last one when it is not. *)
Lemma thead_table_rows :
  hs ≠ [] →
  table_rows table
  = make_row (header_keys hs)
      <$> (if counted then rows else take (length rows - 1) rows).
Proof.
  intros Hne. rewrite table_rows_unfold, thead_headers, thead_row_count by done.
  cbn [fst].
  assert (∀ n, n ≤ length rows →
            (λ r, make_row (header_keys hs) (read_cells table r)) <$> seq 1 n
            = make_row (header_keys hs) <$> take n rows) as Hread.
  { intros n Hn. apply list_eq. intros i. rewrite !list_lookup_fmap.
    destruct (decide (i < n)) as [Hlt|Hge].
    - rewrite lookup_seq_lt by done. rewrite lookup_take_lt by done.
      destruct (lookup_lt_is_Some_2 rows i) as [cells Hcells]; [lia|].
      rewrite Hcells. cbn. by rewrite (thead_read_cells i cells).
    - rewrite lookup_seq_ge by lia. by rewrite lookup_take_ge by lia. }
  destruct counted.
  - replace (S (length rows) - 1) with (length rows) by lia.
    rewrite Hread by lia. by rewrite take_ge by lia.
  - case_decide as Hrows; [by subst rows|]. apply Hread. lia.
Qed.

End TheadTable.

(* ===================================================================== *)
(** ** The log of a harvest *)
(* ===================================================================== *)

Section Log.

Implicit Types (log : list event) (e : event).

Lemma reads_snoc log e :
  reads (log ++ [e]) = reads log + (if decide (e = EvRead) then 1 else 0).
Proof.
  unfold reads. rewrite filter_app, length_app. f_equal.
  case_decide; [by rewrite filter_cons_True|by rewrite filter_cons_False].
Qed.

Lemma advances_snoc log e :
  advances (log ++ [e])
  = advances log + (if decide (e = EvAdvance) then 1 else 0).
Proof.
  unfold advances. rewrite filter_app, length_app. f_equal.
  case_decide; [by rewrite filter_cons_True|by rewrite filter_cons_False].
Qed.

Lemma probes_snoc log e :
  probes (log ++ [e])
  = probes log ++ match e with EvProbe b => [b] | _ => [] end.
Proof. unfold probes. rewrite omap_app. by destruct e. Qed.

Lemma scrolls_snoc log e :
  scrolls (log ++ [e])
  = scrolls log ++ match e with EvScroll c => [c] | _ => [] end.
Proof. unfold scrolls. rewrite omap_app. by destruct e. Qed.

Lemma reads_app log1 log2 : reads (log1 ++ log2) = reads log1 + reads log2.
Proof. unfold reads. by rewrite filter_app, length_app. Qed.

Lemma advances_app log1 log2 :
  advances (log1 ++ log2) = advances log1 + advances log2.
Proof. unfold advances. by rewrite filter_app, length_app. Qed.

Lemma probes_app log1 log2 : probes (log1 ++ log2) = probes log1 ++ probes log2.
Proof. apply omap_app. Qed.

Lemma scrolls_app log1 log2 :
  scrolls (log1 ++ log2) = scrolls log1 ++ scrolls log2.
Proof. apply omap_app. Qed.

Lemma elem_of_probes log b : b ∈ probes log ↔ EvProbe b ∈ log.
Proof.
  unfold probes. rewrite list_elem_of_omap. split.
  - intros (e & He & Hb). destruct e; simplify_eq. done.
  - intros He. by exists (EvProbe b).
Qed.

Lemma elem_of_scrolls log c : c ∈ scrolls log ↔ EvScroll c ∈ log.
Proof.
  unfold scrolls. rewrite list_elem_of_omap. split.
  - intros (e & He & Hb). destruct e; simplify_eq. done.
  - intros He. by exists (EvScroll c).
Qed.

End Log.

(* ===================================================================== *)
(** ** The pagination loop *)
(* ===================================================================== *)

Section Pagination.

Context {world : Type}.
Variable snapshot : world → page.
Variable react : action → world → world.

#[local] Abbreviation hstate := (@hstate world).
#[local] Abbreviation read_and_merge := (read_and_merge snapshot).
#[local] Abbreviation go_next_page := (go_next_page react).
#[local] Abbreviation pagination_loop := (pagination_loop snapshot react).
#[local] Abbreviation clicked := (clicked react).
#[local] Abbreviation page_turn := (page_turn snapshot react).

Implicit Types (s : hstate) (w : world).

Lemma clicked_S k w : clicked (S k) w = clicked k (react Click w).
Proof. apply Nat.iter_succ_r. Qed.

Lemma pagination_loop_turn fuel paginated s :
  has_next_page (snapshot (hs_world s)) = true →
  pagination_loop (S fuel) paginated s = pagination_loop fuel true (page_turn s).
Proof. intros Hnext. unfold page_turn. cbn. by rewrite Hnext. Qed.

Lemma pagination_loop_stop fuel paginated s :
  has_next_page (snapshot (hs_world s)) = false →
  pagination_loop (S fuel) paginated s = (paginated, (probe_next snapshot s).2).
Proof. intros Hnext. cbn. by rewrite Hnext. Qed.

Lemma page_turn_world s : hs_world (page_turn s) = react Click (hs_world s).
Proof. done. Qed.

Lemma page_turn_log s :
  has_next_page (snapshot (hs_world s)) = true →
  hs_log (page_turn s) = hs_log s ++ [EvProbe true; EvAdvance; EvRead].
Proof.
  intros Hnext. cbn. rewrite Hnext. by rewrite <-!app_assoc.
Qed.

(** The loop when the button is there [n] times and then gone, or when the
    range runs out first. *)
Lemma pagination_loop_counts n : ∀ fuel paginated s,
  n ≤ fuel →
  (∀ k, k < n → has_next_page (snapshot (clicked k (hs_world s))) = true) →
  (n < fuel → has_next_page (snapshot (clicked n (hs_world s))) = false) →
  let out := pagination_loop fuel paginated s in
  advances (hs_log out.2) = advances (hs_log s) + n
  ∧ probes (hs_log out.2)
    = probes (hs_log s) ++ replicate n true
      ++ (if decide (n < fuel) then [false] else [])
  ∧ reads (hs_log out.2) = reads (hs_log s) + n
  ∧ hs_world out.2 = clicked n (hs_world s).
Proof.
  induction n as [|n IH]; intros fuel paginated s Hfuel Htrue Hfalse out.
  - destruct fuel as [|fuel].
    + subst out. cbn. rewrite decide_False by lia.
      rewrite !app_nil_r. split_and!; done || lia.
    + subst out.
      assert (has_next_page (snapshot (hs_world s)) = false) as Hnow
        by (apply Hfalse; lia).
      rewrite pagination_loop_stop by done.
      cbn -[probes advances reads]. rewrite Hnow.
      rewrite advances_snoc, probes_snoc, reads_snoc.
      repeat case_decide; try discriminate; try lia.
      split_and!; done || lia.
  - destruct fuel as [|fuel]; [lia|]. subst out.
    assert (has_next_page (snapshot (hs_world s)) = true) as Hnow.
    { apply (Htrue 0). lia. }
    rewrite pagination_loop_turn by done.
    destruct (IH fuel true (page_turn s)) as (Ha & Hp & Hr & Hw).
    + lia.
    + intros k Hk. rewrite page_turn_world, <-clicked_S. apply Htrue. lia.
    + intros Hlt. rewrite page_turn_world, <-clicked_S. apply Hfalse. lia.
    + rewrite Ha, Hp, Hr, Hw, page_turn_world, clicked_S.
      rewrite page_turn_log by done.
      rewrite advances_app, probes_app, reads_app.
      change (advances [EvProbe true; EvAdvance; EvRead]) with 1.
      change (reads [EvProbe true; EvAdvance; EvRead]) with 1.
      change (probes [EvProbe true; EvAdvance; EvRead]) with [true].
      rewrite <-!app_assoc. cbn [replicate app].
      split_and!; try done; try lia.
      do 2 f_equal. repeat case_decide; done || lia.
Qed.

(** What the loop never does, whatever the application shows: more turns
    than the range allows, or a scroll. *)
Lemma pagination_loop_bounds fuel : ∀ paginated s,
  let out := pagination_loop fuel paginated s in
  advances (hs_log out.2) ≤ advances (hs_log s) + fuel
  ∧ reads (hs_log out.2) ≤ reads (hs_log s) + fuel
  ∧ scrolls (hs_log out.2) = scrolls (hs_log s).
Proof.
  induction fuel as [|fuel IH]; intros paginated s out.
  - subst out. cbn. split_and!; done || lia.
  - subst out.
    destruct (has_next_page (snapshot (hs_world s))) eqn:Hnext.
    + rewrite pagination_loop_turn by done.
      destruct (IH true (page_turn s)) as (Ha & Hr & Hs).
      rewrite page_turn_log in Ha, Hr, Hs by done.
      rewrite advances_app in Ha. rewrite reads_app in Hr.
      rewrite scrolls_app in Hs.
      change (advances [EvProbe true; EvAdvance; EvRead]) with 1 in Ha.
      change (reads [EvProbe true; EvAdvance; EvRead]) with 1 in Hr.
      change (scrolls [EvProbe true; EvAdvance; EvRead]) with (@nil string) in Hs.
      rewrite app_nil_r in Hs.
      split_and!; done || lia.
    + rewrite pagination_loop_stop by done.
      cbn -[advances reads scrolls]. rewrite Hnext.
      rewrite advances_snoc, reads_snoc, scrolls_snoc, app_nil_r.
      repeat case_decide; try discriminate.
      split_and!; done || lia.
Qed.

(** The flag [paginated] is set exactly when a probe was answered with
    true. *)
Lemma pagination_loop_flag fuel : ∀ paginated s,
  (paginated = true ↔ EvProbe true ∈ hs_log s) →
  let out := pagination_loop fuel paginated s in
  out.1 = true ↔ EvProbe true ∈ hs_log out.2.
Proof.
  induction fuel as [|fuel IH]; intros paginated s Hflag out; [done|].
  subst out. destruct (has_next_page (snapshot (hs_world s))) eqn:Hnext.
  - rewrite pagination_loop_turn by done. apply IH.
    rewrite page_turn_log by done. split; [intros _|done].
    apply elem_of_app. right. by left.
  - rewrite pagination_loop_stop by done.
    cbn. rewrite Hnext, elem_of_app, list_elem_of_singleton.
    rewrite Hflag. naive_solver.
Qed.

End Pagination.

(* ===================================================================== *)
(** ** The scroll loop *)
(* ===================================================================== *)

Section Scroll.

Context {world : Type}.
Variable snapshot : world → page.
Variable react : action → world → world.
Variable idle_threshold : nat.

#[local] Abbreviation hstate := (@hstate world).
#[local] Abbreviation merge := (read_and_merge snapshot).
#[local] Abbreviation scroll := (scroll_increment react).
#[local] Abbreviation loop := (scroll_loop snapshot react idle_threshold).
#[local] Abbreviation scroll_step := (scroll_step snapshot react).
#[local] Abbreviation round_total := (round_total snapshot react).
#[local] Abbreviation rounds_on_totals := (rounds_on_totals idle_threshold).

Implicit Types (s : hstate) (c : list string).


Lemma rounds_on_totals_ext fuel : ∀ t1 t2 prev idle,
  (∀ j, t1 j = t2 j) →
  rounds_on_totals fuel t1 prev idle = rounds_on_totals fuel t2 prev idle.
Proof.
  induction fuel as [|fuel IH]; intros t1 t2 prev idle Heq; [done|].
  cbn. rewrite Heq. repeat case_decide; try done.
  all: f_equal; apply IH; intros j; apply Heq.
Qed.

Lemma round_total_step c s r :
  round_total c (scroll_step c s) (S r) = round_total c s (S (S r)).
Proof.
  unfold round_total. cbn [Nat.sub]. rewrite !Nat.sub_0_r.
  by rewrite Nat.iter_succ_r.
Qed.

(** The loop reads once per round, and makes the rounds its totals
    dictate. *)
Lemma scroll_loop_rounds fuel : ∀ c prev idle s,
  reads (hs_log (loop fuel c prev idle s))
  = reads (hs_log s)
    + rounds_on_totals fuel (λ j, Z.of_nat (round_total c s (S j))) prev idle.
Proof.
  induction fuel as [|fuel IH]; intros c prev idle s; [cbn; lia|].
  cbn [scroll_loop rounds_on_totals].
  unfold scroll_round_end.
  change (Z.of_nat (round_total c s 1))
    with (Z.of_nat (length (all_rows (hs_acc (merge s))))).
  set (current := Z.of_nat (length (all_rows (hs_acc (merge s))))).
  set (idle' := if decide (current = prev) then idle + 1 else 0).
  destruct (decide (idle_threshold ≤ idle')).
  - cbn [hs_log read_and_merge]. rewrite reads_snoc. by rewrite decide_True.
  - rewrite IH. cbn [hs_log scroll_increment read_and_merge].
    rewrite !reads_snoc.
    rewrite (decide_False (P := EvScroll _ = EvRead)) by done.
    rewrite (decide_True (P := EvRead = EvRead)) by done.
    rewrite (rounds_on_totals_ext fuel _
               ((λ j, Z.of_nat (round_total c s (S j))) ∘ S)).
    + lia.
    + intros j. cbn. f_equal. apply (round_total_step c s j).
Qed.

(** The totals stay the same: the loop goes on until the idle threshold is
    met or the range runs out. *)
Lemma rounds_stall fuel : ∀ totals prev idle,
  (∀ j, totals j = prev) → idle < idle_threshold →
  rounds_on_totals fuel totals prev idle = (idle_threshold - idle) `min` fuel.
Proof.
  induction fuel as [|fuel IH]; intros totals prev idle Hsame Hidle; [cbn; lia|].
  cbn. rewrite (decide_True (P := totals 0 = prev)) by apply Hsame.
  case_decide.
  - lia.
  - rewrite IH; [lia| |lia]. intros j. cbn. by rewrite !Hsame.
Qed.

(** The totals change in each of the first [K] rounds and stay the same
    from then on. *)
Lemma rounds_growth K : ∀ fuel totals prev idle,
  1 ≤ idle_threshold → 1 ≤ K →
  totals 0 ≠ prev →
  (∀ j, S j < K → totals (S j) ≠ totals j) →
  (∀ j, K ≤ S j → totals (S j) = totals j) →
  rounds_on_totals fuel totals prev idle = (K + idle_threshold) `min` fuel.
Proof.
  induction K as [|K IH]; intros fuel totals prev idle HT HK H0 Hgrow Hstall;
    [lia|].
  destruct fuel as [|fuel]; [cbn; lia|].
  cbn. rewrite (decide_False (P := totals 0 = prev)) by done.
  rewrite (decide_False (P := idle_threshold ≤ 0)) by lia.
  destruct (decide (K = 0)) as [->|HK'].
  - rewrite rounds_stall; [lia| |lia].
    intros j. cbn. induction j as [|j IHj]; [apply Hstall; lia|].
    rewrite <-IHj. apply Hstall. lia.
  - rewrite IH; [lia|lia|lia| | |].
    + cbn. apply Hgrow. lia.
    + intros j Hj. cbn. apply Hgrow. lia.
    + intros j Hj. cbn. apply Hstall. lia.
Qed.

Lemma rounds_on_totals_le fuel : ∀ totals prev idle,
  rounds_on_totals fuel totals prev idle ≤ fuel.
Proof.
  induction fuel as [|fuel IH]; intros totals prev idle; [done|].
  cbn. repeat case_decide; try lia.
  all: apply le_n_S, IH.
Qed.

(** The run of rounds without growth that ends with round [e] has length
    [m] or more exactly when the last [m] rounds all repeat the total of the
    round before. *)
Lemma idle_run_window (g : nat → Z) e : ∀ m,
  m ≤ idle_run g e ↔ m ≤ e ∧ ∀ r, e - m < r ≤ e → g r = g (r - 1).
Proof.
  induction e as [|e IH]; intros m.
  { cbn. split; [|tauto]. intros Hm. split; [done|]. intros r Hr. lia. }
  cbn [idle_run]. case_decide as Heq.
  - destruct m as [|m].
    { split; [|lia]. intros _. split; [lia|]. intros r Hr. lia. }
    specialize (IH m). split.
    + intros Hm. destruct IH as [[Hle Hwin] _]; [lia|]. split; [lia|].
      intros r Hr. destruct (decide (r = S e)) as [->|Hne].
      * by rewrite Nat.sub_succ, Nat.sub_0_r.
      * apply Hwin. lia.
    + intros [Hle Hwin]. destruct IH as [_ IH].
      assert (m ≤ idle_run g e); [|lia]. apply IH. split; [lia|].
      intros r Hr. apply Hwin. lia.
  - split; [intros Hm; assert (m = 0) as -> by lia; split; [lia|intros r Hr; lia]|].
    intros [Hle Hwin]. destruct m as [|m]; [lia|].
    exfalso. apply Heq. specialize (Hwin (S e)).
    replace (S e - 1) with e in Hwin by lia. apply Hwin. lia.
Qed.

(** From round [p] on, the loop goes on to the first round that completes
    a run of [idle_threshold] rounds without growth, or to the end of its
    range. *)
Lemma rounds_until_stall (g : nat → Z) n : ∀ p fuel,
  1 ≤ n →
  (∀ q, p < q < p + n → idle_run g q < idle_threshold) →
  idle_threshold ≤ idle_run g (p + n) →
  rounds_on_totals fuel (λ j, g (S (p + j))) (g p) (idle_run g p)
  = n `min` fuel.
Proof.
  induction n as [|n IH]; intros p fuel Hn Hno Hstop; [lia|].
  destruct fuel as [|fuel]; [cbn; lia|].
  cbn [rounds_on_totals]. rewrite Nat.add_0_r.
  change (if decide (g (S p) = g p) then idle_run g p + 1 else 0)
    with (idle_run g (S p)).
  case_decide as Hend.
  - destruct n as [|n]; [done|]. specialize (Hno (S p)). lia.
  - destruct n as [|n].
    { exfalso. apply Hend. by rewrite Nat.add_1_r in Hstop. }
    rewrite (rounds_on_totals_ext fuel _ (λ j, g (S (S p + j)))).
    + rewrite IH; [lia|lia| |].
      * intros q Hq. apply Hno. lia.
      * by replace (S p + S n) with (p + S (S n)) by lia.
    + intros j. cbn. by rewrite Nat.add_succ_r.
Qed.

(** Once a run of [idle_threshold] rounds without growth is complete, the
    loop has ended. *)
Lemma rounds_within_stall (g : nat → Z) n : ∀ p fuel,
  1 ≤ n →
  idle_threshold ≤ idle_run g (p + n) →
  rounds_on_totals fuel (λ j, g (S (p + j))) (g p) (idle_run g p) ≤ n.
Proof.
  induction n as [|n IH]; intros p fuel Hn Hstop; [lia|].
  destruct fuel as [|fuel]; [cbn; lia|].
  cbn [rounds_on_totals]. rewrite Nat.add_0_r.
  change (if decide (g (S p) = g p) then idle_run g p + 1 else 0)
    with (idle_run g (S p)).
  case_decide as Hend; [lia|].
  destruct n as [|n].
  { exfalso. apply Hend. by rewrite Nat.add_1_r in Hstop. }
  rewrite (rounds_on_totals_ext fuel _ (λ j, g (S (S p + j)))).
  - apply le_n_S, IH; [lia|].
    by replace (S p + S n) with (p + S (S n)) by lia.
  - intros j. cbn. by rewrite Nat.add_succ_r.
Qed.

(** What the scroll loop never does: a probe, a click, or more scrolls
    than the range allows. *)
Lemma scroll_loop_bounds fuel : ∀ c prev idle s,
  let out := loop fuel c prev idle s in
  probes (hs_log out) = probes (hs_log s)
  ∧ advances (hs_log out) = advances (hs_log s)
  ∧ length (scrolls (hs_log out)) ≤ length (scrolls (hs_log s)) + fuel.
Proof.
  induction fuel as [|fuel IH]; intros c prev idle s out.
  - subst out. cbn. split_and!; done || lia.
  - subst out. cbn [scroll_loop]. unfold scroll_round_end.
    set (current := Z.of_nat (length (all_rows (hs_acc (merge s))))).
    set (idle' := if decide (current = prev) then idle + 1 else 0).
    destruct (decide (idle_threshold ≤ idle')).
    + cbn [hs_log read_and_merge].
      rewrite probes_snoc, advances_snoc, scrolls_snoc, !app_nil_r.
      rewrite decide_False by done. split_and!; done || lia.
    + destruct (IH c current idle' (scroll c (merge s))) as (Hp & Ha & Hs).
      rewrite Hp, Ha. cbn [hs_log scroll_increment read_and_merge] in *.
      rewrite !probes_snoc, !advances_snoc. cbn [app]. rewrite !app_nil_r.
      rewrite !scrolls_snoc, !length_app in Hs. cbn [length] in Hs.
      rewrite !decide_False by done. split_and!; done || lia.
Qed.

End Scroll.

(* ===================================================================== *)
(** ** The whole harvest *)
(* ===================================================================== *)


Section HarvestFacts.

Context {world : Type}.
Variable snapshot : world → page.
Variable react : action → world → world.
Variable idle_threshold : nat.

#[local] Abbreviation run := (harvest_run snapshot react idle_threshold).
#[local] Abbreviation paginate := (harvest_paginate snapshot react).
#[local] Abbreviation start := (scroll_start snapshot react).
#[local] Abbreviation containers := (harvest_containers snapshot react).

Implicit Types (w : world).

Lemma harvest_run_paginated w :
  (paginate w).1 = true → run w = (paginate w).2.
Proof.
  intros Hp. unfold harvest_run. destruct (paginate w) as [p s].
  cbn in Hp. by subst p.
Qed.

Lemma harvest_run_scrolling w :
  (paginate w).1 = false →
  run w = scroll_loop snapshot react idle_threshold SCROLL_CAP (containers w)
            (-1) 0 (start w).
Proof.
  intros Hp. unfold harvest_run, harvest_containers, scroll_start.
  destruct (paginate w) as [p s]. cbn in Hp. by subst p.
Qed.

Lemma first_read_log w :
  hs_log (read_and_merge snapshot (harvest_init w)) = [EvRead].
Proof. done. Qed.

(** The flag of the harvest is set exactly when a probe was answered with
    true. *)
Lemma paginated_iff_probe w :
  (paginate w).1 = true ↔ EvProbe true ∈ hs_log (paginate w).2.
Proof.
  apply pagination_loop_flag. rewrite first_read_log. split; [done|].
  intros Hin. apply list_elem_of_singleton in Hin. discriminate.
Qed.

Lemma harvest_probes w :
  probes (hs_log (run w)) = probes (hs_log (paginate w).2).
Proof.
  destruct (paginate w).1 eqn:Hp.
  - by rewrite harvest_run_paginated.
  - rewrite harvest_run_scrolling by done.
    apply (scroll_loop_bounds snapshot react idle_threshold).
Qed.

Lemma harvest_advances w :
  advances (hs_log (run w)) = advances (hs_log (paginate w).2).
Proof.
  destruct (paginate w).1 eqn:Hp.
  - by rewrite harvest_run_paginated.
  - rewrite harvest_run_scrolling by done.
    apply (scroll_loop_bounds snapshot react idle_threshold).
Qed.

Lemma paginate_scrolls w : scrolls (hs_log (paginate w).2) = [].
Proof.
  unfold harvest_paginate.
  destruct (pagination_loop_bounds snapshot react PAGINATION_CAP false
              (read_and_merge snapshot (harvest_init w))) as (_ & _ & ->).
  done.
Qed.

Lemma no_next_no_pagination w :
  has_next_page (snapshot w) = false → (paginate w).1 = false.
Proof.
  intros Hnext. unfold harvest_paginate, PAGINATION_CAP.
  by rewrite pagination_loop_stop.
Qed.

End HarvestFacts.


(* ===================================================================== *)
(** ** The properties of the specification *)
(* ===================================================================== *)

(** C1, as stated, fails: two columns with the same header text give rows
    with one pair for the two columns. *)
Lemma twin_headers_narrow_rows : ¬ rows_as_wide_as_headers.
Proof.
  intros Hclaim.
  specialize (Hclaim twin_page twin_table [("item", "1")]).
  assert (dict_len [("item", "1")] = 2) as Hlen; [|discriminate Hlen].
  apply Hclaim.
  - reflexivity.
  - vm_compute. discriminate.
  - apply (bool_decide_unpack _). vm_compute. exact I.
Qed.

(** C1 (amended): when the header keys of a table are pairwise distinct,
    every returned row has exactly one pair per header, in header order; the
    value under a header is the stripped text of the cell in that column, and
    the empty string when the row has no such cell; cells past the last
    header are dropped. *)
Theorem rows_match_distinct_headers (p : page) (table : located) (r : row) :
  find_table p = Some table →
  (read_headers table).1 ≠ [] →
  NoDup (read_headers table).1 →
  r ∈ extract_table_rows p →
  dict_len r = length (read_headers table).1
  ∧ ∃ i, r = zip (read_headers table).1
                 (cell_at (read_cells table i)
                    <$> seq 0 (length (read_headers table).1)).
Proof.
  intros Htable Hne Hnd Hr. unfold extract_table_rows in Hr.
  rewrite Htable in Hr.
  apply elem_of_table_rows in Hr as (i & _ & ->).
  rewrite make_row_distinct by done. split; [|by exists i].
  unfold dict_len. rewrite length_zip_with, length_fmap, length_seq. lia.
Qed.

Lemma rows_match_distinct_headers_witness :
  dict_len [("name", "B"); ("price", "")] = 2
  ∧ ∃ i, [("name", "B"); ("price", "")]
         = zip (read_headers ragged_table).1
               (cell_at (read_cells ragged_table i)
                  <$> seq 0 (length (read_headers ragged_table).1)).
Proof.
  apply (rows_match_distinct_headers ragged_page ragged_table).
  - reflexivity.
  - vm_compute. discriminate.
  - apply (bool_decide_unpack _). vm_compute. exact I.
  - apply (bool_decide_unpack _). vm_compute. exact I.
Defined.

(** C2: merging the same rows a second time changes neither the accumulated
    rows nor their number, in whatever state the accumulator is. *)
Theorem add_rows_idempotent (rs : list row) (a : accum) :
  let once := (add_rows rs a).2 in
  let twice := (add_rows rs once).2 in
  all_rows twice = all_rows once
  ∧ length (all_rows twice) = length (all_rows once)
  ∧ seen_hashes twice = seen_hashes once.
Proof.
  intros once twice. subst twice.
  rewrite add_rows_all_seen; [done|].
  intros r Hr. by apply add_rows_records.
Qed.



(** C8, as stated, fails: the keys are sorted before hashing, so the
    insertion order does not show in the fingerprint. *)
Lemma swapped_rows_same_fingerprint : ¬ fingerprint_tells_order.
Proof.
  intros Hclaim.
  apply (Hclaim [("name", "A"); ("price", "1")] [("price", "1"); ("name", "A")]).
  - apply (bool_decide_unpack _). vm_compute. exact I.
  - apply Permutation_swap.
  - discriminate.
  - by vm_compute.
Qed.

(** C8 (amended): the fingerprint is a function of the mapping only: two
    rows that hold the same key-value pairs, in the same or in different
    insertion orders, have the same fingerprint. *)
Theorem fingerprint_order_insensitive (r1 r2 : row) :
  NoDup r1.*1 → r1 ≡ₚ r2 → fingerprint r1 = fingerprint r2.
Proof. apply fingerprint_permutation. Qed.

Lemma fingerprint_order_insensitive_witness :
  fingerprint [("name", "A"); ("price", "1")]
  = fingerprint [("price", "1"); ("name", "A")].
Proof.
  apply fingerprint_order_insensitive.
  - apply (bool_decide_unpack _). vm_compute. exact I.
  - apply Permutation_swap.
Defined.

(** C9, as stated, fails: a call that adds one row does not hand back 1. *)
Lemma add_rows_no_count :
  length (all_rows (add_rows [rowA] empty_accum).2) = 1
  ∧ (add_rows [rowA] empty_accum).1 ≠ RInt 1.
Proof. split; [by vm_compute|discriminate]. Qed.

(** C9 (amended): [add_rows] hands back [None]; the number of rows a call
    adds shows as the growth of the accumulated rows, and it is the number of
    distinct fingerprints among the incoming rows that were not in the
    seen-set before the call. *)
Theorem add_rows_returns_none (rs : list row) (a : accum) :
  (add_rows rs a).1 = RNone
  ∧ length (all_rows (add_rows rs a).2)
    = length (all_rows a)
      + size ((list_to_set (fingerprint <$> rs) : gset string) ∖ seen_hashes a).
Proof. split; [done|apply add_rows_growth]. Qed.

(** C4: when the button is there on the first N-1 pages and gone on page N,
    and N-1 is within the range of the pagination loop, the harvest makes
    exactly N-1 advances; the answers of the probes are N-1 times true and,
    if the range is not used up, one false. *)
Theorem pagination_advance_count {world : Type} (snapshot : world → page)
    (react : action → world → world) (idle_threshold : nat) (w : world) (N : nat) :
  1 ≤ N → N - 1 ≤ PAGINATION_CAP →
  (∀ k, k < N - 1 → has_next_page (snapshot (clicked react k w)) = true) →
  has_next_page (snapshot (clicked react (N - 1) w)) = false →
  let log := hs_log (harvest_run snapshot react idle_threshold w) in
  advances log = N - 1
  ∧ probes log
    = replicate (N - 1) true ++ (if decide (N - 1 < PAGINATION_CAP) then [false] else []).
Proof.
  intros HN Hcap Htrue Hfalse log. subst log.
  rewrite harvest_advances, harvest_probes. unfold harvest_paginate.
  destruct (pagination_loop_counts snapshot react (N - 1) PAGINATION_CAP false
              (read_and_merge snapshot (harvest_init w)))
    as (Ha & Hp & _ & _); [done|done|done|].
  rewrite Ha, Hp. done.
Qed.

Lemma pagination_advance_count_witness :
  let log := hs_log (harvest_run shop_page count_actions 2 0) in
  advances log = 1 ∧ probes log = [true; false].
Proof.
  apply (pagination_advance_count shop_page count_actions 2 0 2).
  - lia.
  - unfold PAGINATION_CAP. lia.
  - intros k Hk. assert (k = 0) as -> by lia. reflexivity.
  - reflexivity.
Defined.


(** C5: once a probe for the next page was answered with true, the harvest
    makes no scroll step, whatever scroll containers the page has. *)
Theorem pagination_excludes_scrolling {world : Type} (snapshot : world → page)
    (react : action → world → world) (idle_threshold : nat) (w : world) :
  EvProbe true ∈ hs_log (harvest_run snapshot react idle_threshold w) →
  scrolls (hs_log (harvest_run snapshot react idle_threshold w)) = [].
Proof.
  intros Hprobe.
  apply elem_of_probes in Hprobe. rewrite harvest_probes in Hprobe.
  apply elem_of_probes, paginated_iff_probe in Hprobe.
  rewrite harvest_run_paginated by done. apply paginate_scrolls.
Qed.

Lemma pagination_excludes_scrolling_witness :
  scroll_containers (scrollable_shop_page 0) = SCROLLABLE_CANDIDATES
  ∧ scrolls (hs_log (harvest_run scrollable_shop_page count_actions 2 0)) = [].
Proof.
  split; [reflexivity|].
  apply pagination_excludes_scrolling.
  apply (bool_decide_unpack _). vm_compute. exact I.
Defined.


Section Feed.

Lemma append_assoc (x y z : string) : (x +:+ y) +:+ z = x +:+ (y +:+ z).
Proof.
  induction x as [|a x IH]; [done|].
  change (String a ((x +:+ y) +:+ z) = String a (x +:+ (y +:+ z))).
  by rewrite IH.
Qed.

Lemma lstrip_tally k : PyStr.lstrip (tally k) = tally k.
Proof. by destruct k. Qed.

Lemma rstrip_tally k : PyStr.rstrip (tally k) = tally k.
Proof.
  induction k as [|k IH]; [done|].
  cbn [tally PyStr.rstrip]. rewrite IH. by destruct k.
Qed.

Lemma strip_tally k : PyStr.strip (tally k) = tally k.
Proof. unfold PyStr.strip. by rewrite lstrip_tally, rstrip_tally. Qed.

Lemma escape_tally k : Json.escape (tally k) = tally k.
Proof.
  induction k as [|k IH]; [done|].
  cbn [tally Json.escape]. rewrite IH. reflexivity.
Qed.

(** The fingerprint of a row of the feed: the tally marks between two fixed
    strings. *)
Lemma fingerprint_feed_row k :
  fingerprint (feed_row k)
  = ("{" +:+ Json.encode_str "id" +:+ ": " +:+ String Json.dquote "")
    +:+ (tally k +:+ (String Json.dquote "" +:+ "}")).
Proof.
  rewrite <-append_assoc.
  change (fingerprint (feed_row k))
    with (("{" +:+ Json.encode_str "id" +:+ ": " +:+ String Json.dquote "")
          +:+ ((Json.escape (tally k) +:+ String Json.dquote "") +:+ "}")).
  by rewrite escape_tally, !append_assoc.
Qed.

Lemma tally_app_inj j : ∀ k (suffix : string),
  (∀ t, suffix ≠ String "|" t) →
  tally j +:+ suffix = tally k +:+ suffix → j = k.
Proof.
  induction j as [|j IH]; intros [|k] suffix Hsuffix Heq; [done| | |].
  - exfalso. by apply (Hsuffix (tally k +:+ suffix)).
  - exfalso. by apply (Hsuffix (tally j +:+ suffix)).
  - f_equal. apply (IH k suffix Hsuffix).
    change (String "|" (tally j +:+ suffix) = String "|" (tally k +:+ suffix)) in Heq.
    by injection Heq.
Qed.

Lemma fingerprint_feed_row_inj j k :
  fingerprint (feed_row j) = fingerprint (feed_row k) → j = k.
Proof.
  rewrite !fingerprint_feed_row. intros Heq%(inj _).
  apply (tally_app_inj j k _) in Heq; [done|]. intros t Ht. discriminate Ht.
Qed.

Lemma extract_feed_page n :
  extract_table_rows (feed_page n) = [feed_row (n `min` 98)].
Proof.
  change (extract_table_rows (feed_page n))
    with [[("id", PyStr.strip (tally (n `min` 98) +:+ ""))]].
  by rewrite append_empty_r, strip_tally.
Qed.

(** Reading the feed when the rows [first] to [first + n - 1] are in: a row
    in that range changes nothing, the next row is appended. *)
Lemma feed_read (s : @hstate nat) (first n : nat) :
  accum_ok (hs_acc s) →
  all_rows (hs_acc s) = feed_row <$> seq first n →
  let k := hs_world s `min` 98 in
  let a := hs_acc (read_and_merge feed_page s) in
  accum_ok a
  ∧ (first ≤ k < first + n → all_rows a = feed_row <$> seq first n)
  ∧ (k = first + n → all_rows a = feed_row <$> seq first (S n)).
Proof.
  intros Hok Hrows k a. subst a. cbn [read_and_merge hs_acc].
  rewrite extract_feed_page. fold k.
  split; [by apply add_rows_ok|].
  change (add_rows [feed_row k] (hs_acc s)).2 with (add_row (hs_acc s) (feed_row k)).
  destruct Hok as [Hseen _].
  assert (fingerprint (feed_row k) ∈ seen_hashes (hs_acc s) ↔ first ≤ k < first + n)
    as Hin.
  { rewrite Hseen, elem_of_list_to_set, Hrows, <-list_fmap_compose.
    rewrite list_elem_of_fmap. split.
    - intros (i & Hfp & Hi). apply fingerprint_feed_row_inj in Hfp. subst i.
      by apply elem_of_seq in Hi.
    - intros Hk. exists k. split; [done|]. by apply elem_of_seq. }
  split.
  - intros Hk. by rewrite add_row_old by (by apply Hin).
  - intros Hk. rewrite add_row_new by (rewrite Hin; lia).
    cbn [all_rows]. by rewrite Hrows, seq_S, fmap_app, Hk.
Qed.

Variable c : list string.
Variable first : nat.
Hypothesis first_row_exists : first ≤ 98.

#[local] Abbreviation step := (scroll_step feed_page count_actions c).
#[local] Abbreviation start := (scroll_start feed_page count_actions first).

Lemma feed_start :
  hs_world start = first
  ∧ accum_ok (hs_acc start)
  ∧ all_rows (hs_acc start) = feed_row <$> seq first 1.
Proof.
  unfold scroll_start, harvest_paginate, PAGINATION_CAP.
  rewrite pagination_loop_stop by done.
  destruct (feed_read (harvest_init first) first 0 empty_accum_ok eq_refl)
    as (Hok & _ & Hnew).
  split_and!; [done|done|]. apply Hnew. cbn [harvest_init hs_world]. lia.
Qed.

Lemma feed_step_world (s : @hstate nat) : hs_world (step s) = S (hs_world s).
Proof. done. Qed.

Lemma feed_step_acc (s : @hstate nat) :
  hs_acc (step s) = hs_acc (read_and_merge feed_page s).
Proof. done. Qed.

(** The feed after [j] rounds of the scroll loop. *)
Lemma feed_run j :
  hs_world (Nat.iter j step start) = first + j
  ∧ accum_ok (hs_acc (Nat.iter j step start))
  ∧ all_rows (hs_acc (Nat.iter j step start))
    = feed_row <$> seq first ((j `max` 1) `min` (99 - first)).
Proof.
  induction j as [|j (Hw & Hok & Hrows)].
  { destruct feed_start as (Hw & Hok & Hrows).
    change (Nat.iter 0 step start) with start. split_and!; [lia|done|].
    rewrite Hrows. f_equal. f_equal. lia. }
  rewrite Nat.iter_succ, feed_step_world, feed_step_acc.
  destruct (feed_read _ _ _ Hok Hrows) as (Hok' & Hold & Hnew).
  rewrite Hw in Hold, Hnew.
  split_and!; [lia|done|].
  destruct (decide (1 ≤ j ∧ first + j ≤ 98)) as [Hj|Hj].
  - rewrite Hnew by lia. f_equal. f_equal. lia.
  - rewrite Hold by lia. f_equal. f_equal. lia.
Qed.

Lemma feed_round_total r :
  1 ≤ r →
  round_total feed_page count_actions c start r = r `min` (99 - first).
Proof.
  intros Hr. unfold round_total. rewrite <-feed_step_acc, <-Nat.iter_succ.
  replace (S (r - 1)) with r by lia.
  destruct (feed_run r) as (_ & _ & ->).
  rewrite length_fmap, length_seq. lia.
Qed.

End Feed.

Lemma feed_harvest_round_total (first r : nat) :
  first ≤ 98 → 1 ≤ r →
  harvest_round_total feed_page count_actions first r = r `min` (99 - first).
Proof. intros Hfirst Hr. by apply feed_round_total. Qed.

(** The rounds of the scroll loop of a harvest whose totals grow in each of
    the first [K] rounds and not after. *)
Lemma harvest_scroll_rounds_min {world : Type} (snapshot : world → page)
    (react : action → world → world) (idle_threshold : nat) (w : world) (K : nat) :
  has_next_page (snapshot w) = false →
  1 ≤ idle_threshold → 1 ≤ K →
  (∀ r, 1 ≤ r < K →
     harvest_round_total snapshot react w r
     < harvest_round_total snapshot react w (r + 1)) →
  (∀ r, K ≤ r →
     harvest_round_total snapshot react w (r + 1)
     = harvest_round_total snapshot react w r) →
  harvest_scroll_rounds snapshot react idle_threshold w
  = (K + idle_threshold) `min` SCROLL_CAP.
Proof.
  intros Hnext HT HK Hgrow Hstall. unfold harvest_scroll_rounds.
  rewrite harvest_run_scrolling by (by apply no_next_no_pagination).
  rewrite scroll_loop_rounds.
  rewrite (rounds_growth idle_threshold K); [lia|done|done|lia| |].
  - intros j Hj. specialize (Hgrow (S j)).
    unfold harvest_round_total in Hgrow. rewrite Nat.add_1_r in Hgrow. lia.
  - intros j Hj. specialize (Hstall (S j)).
    unfold harvest_round_total in Hstall. rewrite Nat.add_1_r in Hstall.
    f_equal. apply Hstall. lia.
Qed.

(** Every harvest stays within the ranges of its loops. *)
Lemma harvest_within_caps {world : Type} (snapshot : world → page)
    (react : action → world → world) (idle_threshold : nat) (w : world) :
  let log := hs_log (harvest_run snapshot react idle_threshold w) in
  advances log ≤ PAGINATION_CAP
  ∧ length (scrolls log) ≤ SCROLL_CAP
  ∧ reads log ≤ 1 + PAGINATION_CAP + SCROLL_CAP.
Proof.
  intros log. subst log.
  pose proof (pagination_loop_bounds snapshot react PAGINATION_CAP false
                (read_and_merge snapshot (harvest_init w)))
    as (Ha & Hr & Hs).
  change (pagination_loop snapshot react PAGINATION_CAP false
            (read_and_merge snapshot (harvest_init w)))
    with (harvest_paginate snapshot react w) in *.
  rewrite first_read_log in Ha, Hr, Hs.
  change (advances [EvRead]) with 0 in Ha.
  change (reads [EvRead]) with 1 in Hr.
  change (scrolls [EvRead]) with (@nil string) in Hs.
  rewrite harvest_advances.
  destruct (harvest_paginate snapshot react w).1 eqn:Hflag.
  - rewrite harvest_run_paginated by done. rewrite Hs. cbn [length].
    split_and!; lia.
  - rewrite harvest_run_scrolling by done.
    pose proof (scroll_loop_bounds snapshot react idle_threshold SCROLL_CAP
                  (harvest_containers snapshot react w) (-1) 0
                  (scroll_start snapshot react w)) as (_ & _ & Hsc).
    rewrite scroll_loop_rounds.
    pose proof (rounds_on_totals_le idle_threshold SCROLL_CAP
                  (λ j, Z.of_nat (round_total snapshot react
                     (harvest_containers snapshot react w)
                     (scroll_start snapshot react w) (S j))) (-1) 0).
    unfold scroll_start in *. rewrite Hs in Hsc. cbn [length] in Hsc.
    split_and!; lia.
Qed.

Section ScrollRounds.

Context {world : Type}.
Variable snapshot : world → page.
Variable react : action → world → world.
Variable idle_threshold : nat.

#[local] Abbreviation rounds := (harvest_scroll_rounds snapshot react idle_threshold).
#[local] Abbreviation counts := (harvest_counts snapshot react).
#[local] Abbreviation stalled_at := (stalled_at snapshot react idle_threshold).
#[local] Abbreviation idle_round := (idle_round snapshot react).
#[local] Abbreviation total := (harvest_round_total snapshot react).

Implicit Types (w : world).

(** The rounds of the scroll loop of a harvest that turns no page, from the
    counts the loop compares. *)
Lemma harvest_scroll_rounds_counts w :
  has_next_page (snapshot w) = false →
  rounds w
  = rounds_on_totals idle_threshold SCROLL_CAP
      (λ j, counts w (S (0 + j))) (counts w 0) (idle_run (counts w) 0).
Proof.
  intros Hnext. unfold harvest_scroll_rounds.
  rewrite harvest_run_scrolling by (by apply no_next_no_pagination).
  rewrite scroll_loop_rounds.
  change (rounds_on_totals idle_threshold SCROLL_CAP
            (λ j, counts w (S (0 + j))) (counts w 0) (idle_run (counts w) 0))
    with (rounds_on_totals idle_threshold SCROLL_CAP
            (λ j, Z.of_nat (round_total snapshot react
                              (harvest_containers snapshot react w)
                              (scroll_start snapshot react w) (S j))) (-1) 0).
  lia.
Qed.

(** Round [e] completes a run of [idle_threshold] rounds without a new row
    exactly when the counter of the loop has reached the threshold there. *)
Lemma stalled_at_idle_run w e :
  1 ≤ idle_threshold →
  stalled_at w e ↔ idle_threshold ≤ idle_run (counts w) e.
Proof.
  intros HT. rewrite idle_run_window. unfold stalled_at, idle_round. split.
  - intros [He Hidle]. split.
    + destruct (decide (idle_threshold ≤ e)) as [|Hlt]; [done|].
      destruct (Hidle 1) as [Hbad _]; lia.
    + intros r Hr. destruct (Hidle r Hr) as [Hr2 Heq].
      destruct r as [|[|r]]; [lia|lia|].
      replace (S (S r) - 1) with (S r) in * by lia.
      change (Z.of_nat (total w (S (S r))) = Z.of_nat (total w (S r))).
      by rewrite Heq.
  - intros [He Hwin]. split; [lia|]. intros r Hr.
    specialize (Hwin r Hr). destruct r as [|[|r]]; [lia| |].
    + cbn in Hwin. lia.
    + split; [lia|]. replace (S (S r) - 1) with (S r) in * by lia.
      change (Z.of_nat (total w (S (S r))) = Z.of_nat (total w (S r))) in Hwin.
      by apply (inj Z.of_nat) in Hwin.
Qed.

(** The scroll loop ends with the first round that completes a run of
    [idle_threshold] rounds without a new row, or with its range. *)
Lemma harvest_scroll_rounds_first_stall w e :
  has_next_page (snapshot w) = false →
  1 ≤ idle_threshold →
  stalled_at w e →
  (∀ e', e' < e → ¬ stalled_at w e') →
  rounds w = e `min` SCROLL_CAP.
Proof.
  intros Hnext HT Hstall Hfirst.
  rewrite harvest_scroll_rounds_counts by done.
  apply rounds_until_stall.
  - by destruct Hstall.
  - intros q Hq. apply Nat.nle_gt. rewrite <-stalled_at_idle_run by done.
    apply Hfirst. lia.
  - by apply stalled_at_idle_run.
Qed.

Lemma harvest_scroll_rounds_within w e :
  has_next_page (snapshot w) = false →
  1 ≤ idle_threshold →
  stalled_at w e →
  rounds w ≤ e.
Proof.
  intros Hnext HT Hstall.
  rewrite harvest_scroll_rounds_counts by done.
  apply rounds_within_stall.
  - by destruct Hstall.
  - by apply stalled_at_idle_run.
Qed.

(** The scroll loop of every harvest stays within its range; it makes no
    round when a page was turned. *)
Lemma harvest_scroll_rounds_le w : rounds w ≤ SCROLL_CAP.
Proof.
  unfold harvest_scroll_rounds.
  destruct (harvest_paginate snapshot react w).1 eqn:Hflag.
  - rewrite harvest_run_paginated by done. unfold scroll_start. lia.
  - rewrite harvest_run_scrolling by done. rewrite scroll_loop_rounds.
    pose proof (rounds_on_totals_le idle_threshold SCROLL_CAP
                  (λ j, Z.of_nat (round_total snapshot react
                     (harvest_containers snapshot react w)
                     (scroll_start snapshot react w) (S j))) (-1) 0).
    lia.
Qed.

(** When the totals stop growing after round [K], round [K + idle_threshold]
    completes a run without a new row; when round [K] itself brought a new
    row, no round from [K] on completes one earlier. *)
Lemma stalled_after_last_growth w K :
  1 ≤ idle_threshold → 1 ≤ K →
  (∀ r, K ≤ r → total w (r + 1) = total w r) →
  stalled_at w (K + idle_threshold)
  ∧ (¬ idle_round w K →
     ∀ e, K ≤ e < K + idle_threshold → ¬ stalled_at w e).
Proof.
  intros HT HK Hstall. split.
  - split; [lia|]. intros r Hr. split; [lia|].
    specialize (Hstall (r - 1)). replace (r - 1 + 1) with r in Hstall by lia.
    apply Hstall. lia.
  - intros Hgrow e He [_ Hidle]. apply Hgrow, Hidle. lia.
Qed.

End ScrollRounds.


(** A run of rounds without a new row that is complete before the totals
    stop growing ends the loop there: with an idle threshold of 2 the slow
    feed is left after round 3, and the row that round 4 would have added
    is not in the result. *)
Lemma early_stall_ends_scrolling :
  harvest_round_total late_page count_actions 0 <$> [1; 2; 3; 4; 5] = [1; 1; 1; 2; 2]
  ∧ harvest_scroll_rounds late_page count_actions 2 0 = 3
  ∧ harvest_all_pages late_page count_actions 2 0 = [feed_row 1].
Proof. split_and!; by vm_compute. Qed.



(** C7, as stated, fails in its second half: the header text is found in
    the header area, the row at index 0 is the data row A, and row A is not
    among the returned rows. *)
Lemma header_found_first_row_skipped :
  header_area grid_table = ["name"; "price"]
  ∧ read_cells grid_table 0 = ["A"; "1"]
  ∧ extract_table_rows grid_page = [rowB]
  ∧ rowA ∉ extract_table_rows grid_page.
Proof.
  split_and!; [by vm_compute..|].
  apply (bool_decide_unpack _). vm_compute. exact I.
Qed.

(** Header cells without text do not start the fallback: the header
    locator matches two cells, their blank texts become the keys [col_0] and
    [col_1], and the cells of the row at index 0 are not used as keys. *)
Lemma blank_headers_no_fallback :
  header_area blank_grid_table = [" "; ""]
  ∧ (read_headers blank_grid_table).1 = ["col_0"; "col_1"]
  ∧ read_cells blank_grid_table 0 = ["A"; "1"]
  ∧ table_rows blank_grid_table = [[("col_0", "B"); ("col_1", "2")]].
Proof. split_and!; by vm_compute. Qed.

(** C7 (amended): when the header locator matches no cell, so that the list
    of header texts is empty, the cell texts of the row at index 0 become
    the header keys; when it matches a cell, the header keys come from the
    header area, a blank text at position i giving the key [col_i], and the
    fallback is not taken; in both cases the rows are read from index 1 on,
    so the row at index 0 is never among the returned rows. *)
Theorem header_rows_start_at_one (p : page) (table : located) :
  find_table p = Some table →
  (header_area table = [] →
     (read_headers table).1 = header_keys (read_cells table 0))
  ∧ (header_area table ≠ [] →
     (read_headers table).1 = header_keys (header_area table))
  ∧ (∀ i h, header_area table !! i = Some h → PyStr.strip h = "" →
       (read_headers table).1 !! i = Some ("col_" +:+ PyStr.of_nat i))
  ∧ (read_headers table).2 = 1
  ∧ extract_table_rows p
    = (λ r, make_row (read_headers table).1 (read_cells table r))
        <$> seq 1 (read_row_count table - 1).
Proof.
  intros Htable.
  assert (header_area table ≠ [] →
          (read_headers table).1 = header_keys (header_area table)) as Hsome.
  { intros Hsome. unfold read_headers, header_keys.
    destruct (header_area table) as [|h hs]; [done|]. by rewrite imap_cons. }
  split_and!.
  - intros Hnone. unfold read_headers. rewrite Hnone. cbn.
    by rewrite first_row_is_row_0.
  - done.
  - intros i h Hi Hblank. rewrite Hsome by (by intros Hnil; rewrite Hnil in Hi).
    unfold header_keys. rewrite list_lookup_imap, Hi. cbn. by rewrite Hblank.
  - apply read_headers_start.
  - unfold extract_table_rows. rewrite Htable. apply table_rows_unfold.
Qed.

Lemma header_rows_start_at_one_witness :
  (header_area headless_table = [] →
     (read_headers headless_table).1 = header_keys (read_cells headless_table 0))
  ∧ (header_area headless_table ≠ [] →
     (read_headers headless_table).1 = header_keys (header_area headless_table))
  ∧ (∀ i h, header_area headless_table !! i = Some h → PyStr.strip h = "" →
       (read_headers headless_table).1 !! i = Some ("col_" +:+ PyStr.of_nat i))
  ∧ (read_headers headless_table).2 = 1
  ∧ extract_table_rows headless_page
    = (λ r, make_row (read_headers headless_table).1 (read_cells headless_table r))
        <$> seq 1 (read_row_count headless_table - 1).
Proof. apply (header_rows_start_at_one headless_page headless_table). reflexivity. Defined.





(* ===================================================================== *)
(** ** More on [extract_table_rows] *)
(* ===================================================================== *)

Section HeaderKeys.

Lemma col_key_nonempty (i : nat) : "col_" +:+ PyStr.of_nat i ≠ "".
Proof. discriminate. Qed.

Lemma of_nat_inj (i j : nat) : PyStr.of_nat i = PyStr.of_nat j → i = j.
Proof.
  assert (∀ n, Nat.to_uint n ≠ Decimal.Nil) as Hnil.
  { intros n Hn. pose proof (DecimalNat.Unsigned.of_to n) as Hof.
    rewrite Hn in Hof. cbn in Hof. subst n. discriminate Hn. }
  unfold PyStr.of_nat. intros Heq.
  apply DecimalNat.Unsigned.to_uint_inj.
  pose proof (NilZero.usu _ (Hnil i)) as Hi.
  pose proof (NilZero.usu _ (Hnil j)) as Hj.
  rewrite Heq in Hi. rewrite Hi in Hj. by injection Hj.
Qed.

End HeaderKeys.

(** X1: the header keys are as many as the header texts, and none of them is
    the empty string: a text that is blank after stripping gives the key
    [col_<i>] of its position. *)
Theorem header_keys_never_empty (texts : list string) :
  length (header_keys texts) = length texts
  ∧ Forall (λ k, k ≠ "") (header_keys texts)
  ∧ ∀ i h, texts !! i = Some h → PyStr.strip h = "" →
           header_keys texts !! i = Some ("col_" +:+ PyStr.of_nat i).
Proof.
  unfold header_keys. split_and!.
  - apply length_imap.
  - apply Forall_lookup. intros i k Hk.
    rewrite list_lookup_imap in Hk.
    destruct (texts !! i) as [h|]; [|done]. cbn in Hk. simplify_eq.
    unfold PyStr.or_else. by destruct (PyStr.strip h).
  - intros i h Hi Hblank. rewrite list_lookup_imap, Hi. cbn. by rewrite Hblank.
Qed.

Section RowShape.

Implicit Types (d : row) (items : list (string * string)).

Lemma dict_set_keys k v d :
  (dict_set k v d).*1 = if decide (k ∈ d.*1) then d.*1 else d.*1 ++ [k].
Proof.
  induction d as [|[k' v'] d IH]; [done|]. cbn [dict_set].
  destruct (decide (k = k')) as [->|Hne].
  - rewrite decide_True by (cbn; left). done.
  - cbn [fmap list_fmap fst]. change (list_fmap _ _ fst ?l) with (l.*1).
    rewrite IH. destruct (decide (k ∈ d.*1)) as [Hin|Hin].
    + rewrite decide_True by (cbn; by right). done.
    + rewrite decide_False; [done|]. cbn. rewrite elem_of_cons. naive_solver.
Qed.

Lemma dict_set_NoDup k v d : NoDup d.*1 → NoDup (dict_set k v d).*1.
Proof.
  intros Hnd. rewrite dict_set_keys. case_decide; [done|].
  apply NoDup_app. split_and!; [done| |apply NoDup_singleton].
  intros x Hx ->%list_elem_of_singleton. done.
Qed.

Lemma dict_set_values k v d kv :
  kv ∈ dict_set k v d → kv ∈ d ∨ kv = (k, v).
Proof.
  induction d as [|[k' v'] d IH]; cbn [dict_set].
  - intros ->%list_elem_of_singleton. by right.
  - case_decide as Hk.
    + subst k'. intros [->|Hin]%elem_of_cons; [by right|]. left. by right.
    + intros [->|Hin]%elem_of_cons; [left; by left|].
      destruct (IH Hin) as [?|?]; [left; by right|by right].
Qed.

Lemma foldl_dict_set_NoDup items d :
  NoDup d.*1 → NoDup (foldl (λ d kv, dict_set kv.1 kv.2 d) d items).*1.
Proof.
  revert d. induction items as [|kv items IH]; intros d Hnd; [done|].
  cbn. by apply IH, dict_set_NoDup.
Qed.

Lemma foldl_dict_set_values items d kv :
  kv ∈ foldl (λ d kv, dict_set kv.1 kv.2 d) d items → kv ∈ d ∨ kv ∈ items.
Proof.
  revert d. induction items as [|[k v] items IH]; intros d Hin; [by left|].
  cbn in Hin. apply IH in Hin as [Hin|Hin]; [|right; by right].
  apply dict_set_values in Hin as [?|Heq]; [by left|right; rewrite Heq; by left].
Qed.

(** A dictionary built by a comprehension has distinct keys, and its pairs
    are among the pairs it was built from. *)
Lemma dict_of_items_NoDup items : NoDup (dict_of_items items).*1.
Proof. apply foldl_dict_set_NoDup. constructor. Qed.

Lemma dict_of_items_values items kv : kv ∈ dict_of_items items → kv ∈ items.
Proof.
  intros Hin. apply foldl_dict_set_values in Hin as [Hin|Hin]; [|done].
  by apply elem_of_nil in Hin.
Qed.

Lemma lstrip_head s c :
  head_char (PyStr.lstrip s) = Some c → PyStr.isspace c = false.
Proof.
  induction s as [|a s IH]; [done|]. cbn [PyStr.lstrip].
  destruct (PyStr.isspace a) eqn:Ha; [done|]. cbn. intros ?. by simplify_eq.
Qed.

Lemma rstrip_head s c :
  head_char (PyStr.rstrip s) = Some c → head_char s = Some c.
Proof.
  destruct s as [|a s]; [done|]. cbn [PyStr.rstrip].
  destruct (PyStr.rstrip s); [|done]. by destruct (PyStr.isspace a).
Qed.

Lemma rstrip_last s c :
  last_char (PyStr.rstrip s) = Some c → PyStr.isspace c = false.
Proof.
  induction s as [|a s IH]; [done|]. cbn [PyStr.rstrip].
  destruct (PyStr.rstrip s) as [|b t].
  - destruct (PyStr.isspace a) eqn:Ha; [done|]. cbn. intros ?. by simplify_eq.
  - done.
Qed.

Lemma strip_trimmed s : trimmed (PyStr.strip s).
Proof.
  unfold PyStr.strip. split.
  - intros c Hc. by apply rstrip_head, lstrip_head in Hc.
  - apply rstrip_last.
Qed.

Lemma cell_at_trimmed cells i : trimmed (cell_at cells i).
Proof.
  unfold cell_at. destruct (cells !! i); [apply strip_trimmed|]. by split.
Qed.

Lemma build_row_values headers cells kv :
  kv ∈ build_row headers cells → ∃ i, kv.2 = cell_at cells i.
Proof.
  unfold build_row. destruct headers as [|h hs] eqn:Hh.
  - intros Hin%dict_of_items_values.
    apply list_elem_of_lookup in Hin as [i Hi].
    rewrite list_lookup_imap in Hi. destruct (cells !! i); simplify_eq/=.
    by exists i.
  - rewrite <-Hh. clear Hh. intros Hin%dict_of_items_values.
    apply list_elem_of_lookup in Hin as [i Hi].
    rewrite list_lookup_imap in Hi. destruct (headers !! i); simplify_eq/=.
    by exists i.
Qed.

Lemma build_row_NoDup headers cells : NoDup (build_row headers cells).*1.
Proof. unfold build_row. destruct headers; apply dict_of_items_NoDup. Qed.

Lemma extract_rows_are_made (p : page) (r : row) :
  r ∈ extract_table_rows p → ∃ headers cells, r = build_row headers cells.
Proof.
  unfold extract_table_rows. destruct (find_table p) as [table|].
  - intros (i & _ & ->)%elem_of_table_rows. by eexists _, _.
  - by intros ?%elem_of_nil.
Qed.

End RowShape.

(** X2: in every row that [extract_table_rows] returns the keys are pairwise
    distinct, whatever the header texts are. *)
Theorem extracted_rows_unique_keys (p : page) :
  Forall (λ r : row, NoDup r.*1) (extract_table_rows p).
Proof.
  apply Forall_forall. intros r (headers & cells & ->)%extract_rows_are_made.
  apply build_row_NoDup.
Qed.

(** X3: every value in every row that [extract_table_rows] returns is
    trimmed: it neither starts nor ends with white space; a value may be
    empty. *)
Theorem extracted_values_trimmed (p : page) :
  Forall (λ r : row, Forall (λ kv, trimmed kv.2) r) (extract_table_rows p).
Proof.
  apply Forall_forall. intros r (headers & cells & ->)%extract_rows_are_made.
  apply Forall_forall. intros kv (i & ->)%build_row_values.
  apply cell_at_trimmed.
Qed.

(** X5: when no header keys could be derived, a row keeps every cell: the
    stripped text of cell [i] is stored under the key [col_<i>], nothing is
    padded and nothing is dropped. *)
Theorem headerless_row_keeps_cells (cells : list string) :
  make_row [] cells
  = imap (λ i c, ("col_" +:+ PyStr.of_nat i, PyStr.strip c)) cells
  ∧ dict_len (make_row [] cells) = length cells.
Proof.
  assert (make_row [] cells
          = imap (λ i c, ("col_" +:+ PyStr.of_nat i, PyStr.strip c)) cells) as Heq.
  { unfold make_row, build_row, normalize.
    rewrite dict_of_items_distinct.
    - apply imap_ext. intros i c Hi. unfold cell_at. by rewrite Hi.
    - rewrite fmap_imap. apply NoDup_alt. intros i j k Hi Hj.
      rewrite list_lookup_imap in Hi, Hj.
      destruct (cells !! i), (cells !! j); simplify_eq/=.
      by apply of_nat_inj. }
  split; [done|]. unfold dict_len. by rewrite Heq, length_imap.
Qed.

(** The table without header area: what the locators find in it. *)
Section BareTable.

Variable anc : list hdr.
Variable rows : list (list string).

#[local] Abbreviation table := (Located anc (bare_table rows)).
#[local] Abbreviation in_table := ((Ttable, None) :: anc).
#[local] Abbreviation body_row := (plain_body_row anc).
#[local] Abbreviation body_cell := (plain_body_cell anc).

Lemma bare_descendants :
  descendants table
  = Located in_table (Elem Ttbody None (tr_of Ttd <$> rows))
    :: (rows ≫= λ cells, body_row cells :: (body_cell <$> cells)).
Proof.
  unfold descendants, bare_table. cbn [loc_anc loc_elt].
  rewrite elems_unfold. cbn [tail mbind list_bind].
  rewrite elems_unfold, app_nil_r. f_equal.
  induction rows as [|cells rows' IH]; [done|].
  cbn [fmap list_fmap mbind list_bind]. rewrite elems_tr_of.
  f_equal. apply IH.
Qed.

Lemma bare_header_area : header_area table = [].
Proof.
  unfold header_area, locator. rewrite bare_descendants.
  rewrite filter_cons_False by (intros Hm; vm_compute in Hm; discriminate).
  rewrite filter_bind.
  erewrite (list_bind_ext _ (λ _, [])); [|intros cells|reflexivity].
  2:{ rewrite filter_cons_False by (intros Hm; vm_compute in Hm; discriminate).
      apply filter_fmap_none. intros x Hm. vm_compute in Hm. discriminate. }
  by rewrite bind_nil.
Qed.

Lemma bare_rows_located (s : selector) :
  s = SEL_BODY_ROWS ∨ s = SEL_ALL_ROWS ∨ s = SEL_TR →
  locator (Some table) s = body_row <$> rows.
Proof.
  intros Hs. unfold locator. rewrite bare_descendants.
  rewrite filter_cons_False
    by (intros Hm; destruct Hs as [->|[->| ->]]; vm_compute in Hm; discriminate).
  apply body_bind_rows.
  - intros cells. by destruct Hs as [->|[->| ->]].
  - intros x. by destruct Hs as [->|[->| ->]].
Qed.

Lemma bare_row_count : read_row_count table = length rows.
Proof.
  unfold read_row_count. rewrite !bare_rows_located by auto.
  unfold loc_count. rewrite length_fmap. by case_decide.
Qed.

Lemma bare_read_cells (i : nat) :
  read_cells table i = default [] (rows !! i).
Proof.
  unfold read_cells, loc_nth. rewrite bare_rows_located by auto.
  rewrite list_lookup_fmap. destruct (rows !! i) as [cells|]; [|done].
  apply cells_of_tr. by right.
Qed.

Lemma bare_headers :
  read_headers table = (header_keys (default [] (rows !! 0)), 1).
Proof.
  unfold read_headers. rewrite bare_header_area. cbn [header_keys imap].
  by rewrite first_row_is_row_0, bare_read_cells.
Qed.

Lemma bare_table_rows :
  table_rows table
  = make_row (header_keys (default [] (head rows))) <$> tail rows.
Proof.
  rewrite table_rows_unfold, bare_headers, bare_row_count. cbn [fst].
  rewrite <-head_lookup.
  apply list_eq. intros i. rewrite !list_lookup_fmap.
  destruct (decide (i < length rows - 1)) as [Hlt|Hge].
  - rewrite lookup_seq_lt by done. cbn. rewrite bare_read_cells.
    rewrite lookup_tail.
    destruct (lookup_lt_is_Some_2 rows (S i)) as [cells ->]; [lia|]. done.
  - rewrite lookup_seq_ge by lia. rewrite lookup_tail.
    by rewrite (lookup_ge_None_2 rows (S i)) by lia.
Qed.

End BareTable.

(** X4: a table without header area loses no data row: the cells of its
    first row become the header keys, and every later row is returned, in
    order; an empty table gives no rows. *)
Theorem headless_table_returns_all_rows (anc : list hdr)
    (rows : list (list string)) (next : option button) :
  extract_table_rows (page_of anc (bare_table rows) next)
  = make_row (header_keys (default [] (head rows))) <$> tail rows
  ∧ length (extract_table_rows (page_of anc (bare_table rows) next))
    = length rows - 1.
Proof.
  assert (extract_table_rows (page_of anc (bare_table rows) next)
          = make_row (header_keys (default [] (head rows))) <$> tail rows) as ->
    by apply bare_table_rows.
  split; [done|]. rewrite length_fmap. by destruct rows; cbn; lia.
Qed.

(* ===================================================================== *)
(** ** The fingerprint tells rows with different pairs apart *)
(* ===================================================================== *)

Section FingerprintInjective.

(** [unescape_head] undoes [Json.escape_char] on the front of a string. *)
Lemma unescape_escape_char (c : ascii) (rest : string) :
  unescape_head (Json.escape_char c +:+ rest) = Some (c, rest).
Proof. destruct c as [[] [] [] [] [] [] [] []]; reflexivity. Qed.

Lemma escape_closed_inj (s1 : string) : ∀ (s2 r1 r2 : string),
  Json.escape s1 +:+ String Json.dquote r1
  = Json.escape s2 +:+ String Json.dquote r2 →
  s1 = s2 ∧ r1 = r2.
Proof.
  induction s1 as [|c1 s1 IH]; intros [|c2 s2] r1 r2 Heq.
  - change (String Json.dquote r1 = String Json.dquote r2) in Heq.
    by simplify_eq.
  - exfalso. apply (f_equal unescape_head) in Heq.
    cbn [Json.escape] in Heq. rewrite append_assoc, unescape_escape_char in Heq.
    discriminate Heq.
  - exfalso. apply (f_equal unescape_head) in Heq.
    cbn [Json.escape] in Heq. rewrite append_assoc, unescape_escape_char in Heq.
    discriminate Heq.
  - apply (f_equal unescape_head) in Heq. cbn [Json.escape] in Heq.
    rewrite !append_assoc, !unescape_escape_char in Heq. simplify_eq.
    destruct (IH s2 r1 r2) as [-> ->]; done.
Qed.

Lemma encode_str_app (s rest : string) :
  Json.encode_str s +:+ rest
  = String Json.dquote (Json.escape s +:+ String Json.dquote rest).
Proof.
  unfold Json.encode_str.
  change (String Json.dquote ((Json.escape s +:+ String Json.dquote "") +:+ rest)
          = String Json.dquote (Json.escape s +:+ String Json.dquote rest)).
  by rewrite append_assoc.
Qed.

Lemma encode_str_inj (s1 s2 r1 r2 : string) :
  Json.encode_str s1 +:+ r1 = Json.encode_str s2 +:+ r2 → s1 = s2 ∧ r1 = r2.
Proof.
  rewrite !encode_str_app. intros Heq. apply escape_closed_inj. by simplify_eq.
Qed.

Lemma encode_item_inj (kv1 kv2 : string * string) (r1 r2 : string) :
  Json.encode_item kv1 +:+ r1 = Json.encode_item kv2 +:+ r2 →
  kv1 = kv2 ∧ r1 = r2.
Proof.
  destruct kv1 as [k1 v1], kv2 as [k2 v2]. unfold Json.encode_item. cbn [fst snd].
  rewrite !append_assoc. intros [-> Heq]%encode_str_inj.
  change (String ":" (String " " (Json.encode_str v1 +:+ r1))
          = String ":" (String " " (Json.encode_str v2 +:+ r2))) in Heq.
  rewrite !encode_str_app in Heq. simplify_eq.
  by apply escape_closed_inj in Heq as [-> ->].
Qed.

(** The text of a non-empty list of items up to the closing brace. *)
Lemma join_items_cons (x : string) (xs : list string) :
  PyStr.join ", " (x :: xs) +:+ "}"
  = x +:+ match xs with
          | [] => "}"
          | _ :: _ => String "," (String " " (PyStr.join ", " xs +:+ "}"))
          end.
Proof.
  destruct xs as [|y xs]; [done|].
  change (PyStr.join ", " (x :: y :: xs))
    with (x +:+ ", " +:+ PyStr.join ", " (y :: xs)).
  by rewrite !append_assoc.
Qed.

Lemma join_items_inj (l1 : list (string * string)) : ∀ l2,
  PyStr.join ", " (Json.encode_item <$> l1) +:+ "}"
  = PyStr.join ", " (Json.encode_item <$> l2) +:+ "}" →
  l1 = l2.
Proof.
  induction l1 as [|x1 l1 IH]; intros [|x2 l2] Heq; [done| | |].
  - exfalso. rewrite fmap_cons, join_items_cons in Heq.
    destruct x2 as [k v]. unfold Json.encode_item in Heq.
    rewrite !append_assoc, encode_str_app in Heq. discriminate Heq.
  - exfalso. rewrite fmap_cons, join_items_cons in Heq.
    destruct x1 as [k v]. unfold Json.encode_item in Heq.
    rewrite !append_assoc, encode_str_app in Heq. discriminate Heq.
  - rewrite !fmap_cons, !join_items_cons in Heq.
    apply encode_item_inj in Heq as [-> Heq]. f_equal.
    destruct l1 as [|y1 l1], l2 as [|y2 l2]; [done| | |].
    + discriminate Heq.
    + discriminate Heq.
    + apply IH. rewrite !fmap_cons in Heq. by injection Heq.
Qed.

Lemma dumps_sorted_inj (d1 d2 : row) :
  Json.dumps_sorted d1 = Json.dumps_sorted d2 →
  merge_sort Json.item_le d1 = merge_sort Json.item_le d2.
Proof.
  unfold Json.dumps_sorted. intros Heq.
  change ("{" +:+ ?x) with (String "{" x) in Heq. simplify_eq.
  by apply join_items_inj.
Qed.

Lemma dumps_sorted_inj_perm (r1 r2 : row) :
  fingerprint r1 = fingerprint r2 → r1 ≡ₚ r2.
Proof.
  intros Heq%dumps_sorted_inj.
  rewrite <-(merge_sort_Permutation Json.item_le r1), Heq.
  apply merge_sort_Permutation.
Qed.

End FingerprintInjective.

(** X6: two rows with the same fingerprint hold the same key-value pairs, up
    to the order of the keys: de-duplication by fingerprint never takes rows
    with different content for one row. *)
Theorem fingerprint_same_pairs (r1 r2 : row) :
  fingerprint r1 = fingerprint r2 → r1 ≡ₚ r2.
Proof. apply dumps_sorted_inj_perm. Qed.

Lemma fingerprint_same_pairs_witness :
  [("price", "1"); ("name", "A")] ≡ₚ [("name", "A"); ("price", "1")].
Proof. apply fingerprint_same_pairs. reflexivity. Defined.

(* ===================================================================== *)
(** ** What a merge keeps and what the harvest returns *)
(* ===================================================================== *)

Section MergeContent.

Implicit Types (a : accum) (r : row) (rs : list row).

Lemma add_rows_from rs a r :
  r ∈ all_rows (add_rows rs a).2 → r ∈ all_rows a ∨ r ∈ rs.
Proof.
  destruct (add_rows_appends rs a) as (added & -> & Hsub & _).
  intros [?|Hin]%elem_of_app; [by left|right].
  by apply (elem_of_sublist added rs).
Qed.

Lemma add_rows_represents rs a r :
  accum_ok a → r ∈ rs → ∃ r', r' ∈ all_rows (add_rows rs a).2 ∧ r' ≡ₚ r.
Proof.
  intros Hok Hr.
  pose proof (add_rows_records rs a r Hr) as Hseen.
  destruct (add_rows_ok rs a Hok) as [Hset _]. rewrite Hset in Hseen.
  apply elem_of_list_to_set, list_elem_of_fmap in Hseen as (r' & Hfp & Hr').
  exists r'. split; [done|]. symmetry. by apply dumps_sorted_inj_perm.
Qed.

Lemma add_rows_app rs1 rs2 a :
  (add_rows (rs1 ++ rs2) a).2 = (add_rows rs2 (add_rows rs1 a).2).2.
Proof. unfold add_rows. cbn. by rewrite foldl_app. Qed.

Lemma add_rows_prefix rs a : all_rows a `prefix_of` all_rows (add_rows rs a).2.
Proof.
  destruct (add_rows_appends rs a) as (added & -> & _). by apply prefix_app_r.
Qed.

End MergeContent.

(** X7: a merge neither invents nor loses rows: every accumulated row was
    there before or is one of the incoming rows, and every incoming row is
    afterwards represented by an accumulated row with the same key-value
    pairs. *)
Theorem merge_keeps_content (batches : list (list row)) (rs : list row) :
  let before := merge_all batches in
  let after := (add_rows rs before).2 in
  Forall (λ r, r ∈ all_rows before ∨ r ∈ rs) (all_rows after)
  ∧ Forall (λ r, ∃ r', r' ∈ all_rows after ∧ r' ≡ₚ r) rs.
Proof.
  intros before after. split; apply Forall_forall; intros r Hr.
  - by apply add_rows_from.
  - apply add_rows_represents; [apply merge_all_ok|done].
Qed.

Section HarvestContent.

Context {world : Type}.
Variable snapshot : world → page.
Variable react : action → world → world.
Variable idle_threshold : nat.

#[local] Abbreviation hstate := (@hstate world).
#[local] Abbreviation clicked := (clicked react).
#[local] Abbreviation page_turn := (page_turn snapshot react).
#[local] Abbreviation pages_rows := (pages_rows snapshot react).
#[local] Abbreviation run := (harvest_run snapshot react idle_threshold).
#[local] Abbreviation paginate := (harvest_paginate snapshot react).

Implicit Types (s : hstate) (w : world).

Lemma pages_rows_shift w from n :
  pages_rows w (S from) n = pages_rows (react Click w) from n.
Proof.
  unfold pages_rows. f_equal.
  rewrite <-fmap_S_seq, <-list_fmap_compose. apply list_fmap_ext.
  intros i k _. cbv beta delta [compose]. by rewrite clicked_S.
Qed.

Lemma pages_rows_S w from n :
  pages_rows w from (S n)
  = extract_table_rows (snapshot (clicked from w)) ++ pages_rows w (S from) n.
Proof. done. Qed.

Lemma turn_events_S n :
  turn_events (S n) = [EvProbe true; EvAdvance; EvRead] ++ turn_events n.
Proof. done. Qed.

Lemma page_turn_acc s :
  hs_acc (page_turn s)
  = (add_rows (extract_table_rows (snapshot (react Click (hs_world s))))
       (hs_acc s)).2.
Proof. done. Qed.

(** What one run of the pagination loop does: the number [n] of turns it
    makes is the number of leading pages that show the button, cut at the
    range; it reads the pages 1 to [n] and logs [n] turns. *)
Lemma pagination_loop_run fuel : ∀ paginated s,
  ∃ n, n ≤ fuel
    ∧ (∀ k, k < n → has_next_page (snapshot (clicked k (hs_world s))) = true)
    ∧ (n < fuel → has_next_page (snapshot (clicked n (hs_world s))) = false)
    ∧ let out := pagination_loop snapshot react fuel paginated s in
      out.1 = paginated || bool_decide (1 ≤ n)
      ∧ hs_log out.2
        = hs_log s ++ turn_events n
          ++ (if decide (n < fuel) then [EvProbe false] else [])
      ∧ hs_acc out.2 = (add_rows (pages_rows (hs_world s) 1 n) (hs_acc s)).2.
Proof.
  induction fuel as [|fuel IH]; intros paginated s.
  { exists 0. split_and!; [lia|intros; lia|lia|].
    cbn. rewrite orb_false_r, app_nil_r. done. }
  destruct (has_next_page (snapshot (hs_world s))) eqn:Hnext.
  - destruct (IH true (page_turn s)) as (n & Hn & Htrue & Hfalse & Hflag & Hlog & Hacc).
    exists (S n). split_and!.
    + lia.
    + intros [|k] Hk; [done|]. rewrite clicked_S. apply Htrue. lia.
    + intros Hlt. rewrite clicked_S. apply Hfalse. lia.
    + rewrite pagination_loop_turn by done. cbn zeta. split_and!.
      * rewrite Hflag. rewrite (bool_decide_eq_true_2 (1 ≤ S n)) by lia.
        by rewrite orb_true_r.
      * rewrite Hlog, page_turn_log by done.
        rewrite turn_events_S, <-!app_assoc. do 2 f_equal.
        repeat case_decide; done || lia.
      * rewrite Hacc, page_turn_acc, page_turn_world.
        rewrite pages_rows_S, add_rows_app.
        by rewrite (pages_rows_shift (hs_world s) 1 n).
  - exists 0. split_and!; [lia|intros; lia|done|].
    rewrite pagination_loop_stop by done. cbn. rewrite Hnext.
    rewrite orb_false_r. rewrite decide_True by lia. done.
Qed.

(** The number of turns is fixed by what the pages show. *)
Lemma turns_unique (w : world) (fuel n m : nat) :
  n ≤ fuel → m ≤ fuel →
  (∀ k, k < n → has_next_page (snapshot (clicked k w)) = true) →
  (n < fuel → has_next_page (snapshot (clicked n w)) = false) →
  (∀ k, k < m → has_next_page (snapshot (clicked k w)) = true) →
  (m < fuel → has_next_page (snapshot (clicked m w)) = false) →
  n = m.
Proof.
  intros Hn Hm Htn Hfn Htm Hfm.
  destruct (decide (n < m)) as [Hlt|Hge].
  - specialize (Htm n Hlt). rewrite Hfn in Htm by lia. discriminate.
  - destruct (decide (m < n)) as [Hlt|?]; [|lia].
    specialize (Htn m Hlt). rewrite Hfm in Htn by lia. discriminate.
Qed.

(** The harvest when the pages show the button [n] times. *)
Lemma harvest_paginate_run (w : world) (n : nat) :
  n ≤ PAGINATION_CAP →
  (∀ k, k < n → has_next_page (snapshot (clicked k w)) = true) →
  (n < PAGINATION_CAP → has_next_page (snapshot (clicked n w)) = false) →
  (paginate w).1 = bool_decide (1 ≤ n)
  ∧ hs_log (paginate w).2
    = EvRead :: turn_events n
      ++ (if decide (n < PAGINATION_CAP) then [EvProbe false] else [])
  ∧ all_rows (hs_acc (paginate w).2)
    = all_rows (add_rows (pages_rows w 0 (S n)) empty_accum).2.
Proof.
  intros Hn Htrue Hfalse. unfold harvest_paginate.
  destruct (pagination_loop_run PAGINATION_CAP false
              (read_and_merge snapshot (harvest_init w)))
    as (m & Hm & Htm & Hfm & Hflag & Hlog & Hacc).
  assert (m = n) as -> by (by apply (turns_unique w PAGINATION_CAP)).
  cbn zeta in *. split_and!; [done| |].
  - by rewrite Hlog.
  - rewrite Hacc. rewrite pages_rows_S, add_rows_app. done.
Qed.

Lemma harvest_run_turned (w : world) (n : nat) :
  1 ≤ n → n ≤ PAGINATION_CAP →
  (∀ k, k < n → has_next_page (snapshot (clicked k w)) = true) →
  (n < PAGINATION_CAP → has_next_page (snapshot (clicked n w)) = false) →
  hs_log (run w)
  = EvRead :: turn_events n
    ++ (if decide (n < PAGINATION_CAP) then [EvProbe false] else [])
  ∧ harvest_all_pages snapshot react idle_threshold w
    = all_rows (add_rows (pages_rows w 0 (S n)) empty_accum).2.
Proof.
  intros Hn1 Hn Htrue Hfalse.
  destruct (harvest_paginate_run w n Hn Htrue Hfalse) as (Hflag & Hlog & Hacc).
  rewrite bool_decide_eq_true_2 in Hflag by done.
  unfold harvest_all_pages. by rewrite harvest_run_paginated.
Qed.

Lemma advances_turn_events n : advances (turn_events n) = n.
Proof.
  induction n as [|n IH]; [done|].
  rewrite turn_events_S, advances_app, IH. done.
Qed.

Lemma scrolls_turn_events n : scrolls (turn_events n) = [].
Proof.
  induction n as [|n IH]; [done|].
  rewrite turn_events_S, scrolls_app, IH. done.
Qed.

(** What the scroll loop adds to the log holds no probe and no advance. *)
Lemma scroll_loop_log fuel : ∀ c prev idle s,
  ∃ rest,
    hs_log (scroll_loop snapshot react idle_threshold fuel c prev idle s)
    = hs_log s ++ rest
    ∧ probes rest = [] ∧ advances rest = 0.
Proof.
  induction fuel as [|fuel IH]; intros c prev idle s.
  { exists []. by rewrite app_nil_r. }
  cbn [scroll_loop]. unfold scroll_round_end. case_decide.
  - by exists [EvRead].
  - edestruct IH as (rest & -> & Hp & Ha).
    exists ([EvRead; EvScroll (default "body" (head c))] ++ rest).
    cbn [hs_log scroll_increment read_and_merge]. rewrite <-!app_assoc.
    split_and!; [done| |].
    + by rewrite probes_app, Hp.
    + by rewrite advances_app, Ha.
Qed.

(** The batches of rows a part of the harvest merges are reads of the
    application. *)
#[local] Abbreviation merge_from :=
  (foldl (λ (a : accum) (rs : list row), (add_rows rs a).2)).

#[local] Abbreviation reads_of batches :=
  (Forall (λ rs : list row, ∃ w, rs = extract_table_rows (snapshot w)) batches).

Lemma read_and_merge_batches s :
  ∃ batches, reads_of batches
    ∧ hs_acc (read_and_merge snapshot s) = merge_from (hs_acc s) batches.
Proof.
  exists [extract_table_rows (snapshot (hs_world s))]. split; [|done].
  apply Forall_singleton. by eexists.
Qed.

Lemma pagination_loop_batches fuel : ∀ paginated s,
  ∃ batches, reads_of batches
    ∧ hs_acc (pagination_loop snapshot react fuel paginated s).2
      = merge_from (hs_acc s) batches.
Proof.
  induction fuel as [|fuel IH]; intros paginated s; [by exists []|].
  destruct (has_next_page (snapshot (hs_world s))) eqn:Hnext.
  - rewrite pagination_loop_turn by done.
    destruct (IH true (page_turn s)) as (batches & Hreads & ->).
    exists (extract_table_rows (snapshot (react Click (hs_world s))) :: batches).
    split; [|done]. apply Forall_cons. split; [by eexists|done].
  - rewrite pagination_loop_stop by done. by exists [].
Qed.

Lemma scroll_loop_batches fuel : ∀ c prev idle s,
  ∃ batches, reads_of batches
    ∧ hs_acc (scroll_loop snapshot react idle_threshold fuel c prev idle s)
      = merge_from (hs_acc s) batches.
Proof.
  induction fuel as [|fuel IH]; intros c prev idle s; [by exists []|].
  cbn [scroll_loop]. unfold scroll_round_end. case_decide.
  - apply read_and_merge_batches.
  - edestruct IH as (batches & Hreads & ->).
    exists (extract_table_rows (snapshot (hs_world s)) :: batches).
    split; [|done]. apply Forall_cons. split; [by eexists|done].
Qed.

(** After its first read a harvest only merges further reads. *)
Lemma harvest_run_batches w :
  ∃ batches, reads_of batches
    ∧ hs_acc (run w)
      = merge_from (add_rows (extract_table_rows (snapshot w)) empty_accum).2
          batches.
Proof.
  destruct (pagination_loop_batches PAGINATION_CAP false
              (read_and_merge snapshot (harvest_init w)))
    as (batches & Hreads & Hacc).
  change (pagination_loop snapshot react PAGINATION_CAP false
            (read_and_merge snapshot (harvest_init w)))
    with (paginate w) in Hacc.
  destruct (paginate w).1 eqn:Hflag.
  - rewrite harvest_run_paginated by done. by exists batches.
  - rewrite harvest_run_scrolling by done.
    edestruct scroll_loop_batches as (more & Hmore & ->).
    exists (batches ++ more). split; [by apply Forall_app|].
    unfold scroll_start. by rewrite Hacc, foldl_app.
Qed.

Lemma merge_from_prefix batches : ∀ a,
  all_rows a `prefix_of` all_rows (merge_from a batches).
Proof.
  induction batches as [|rs batches IH]; intros a; [done|].
  cbn. etrans; [apply (add_rows_prefix rs)|apply IH].
Qed.

Lemma merge_from_read batches : ∀ a,
  reads_of batches →
  Forall (read_somewhere snapshot) (all_rows a) →
  Forall (read_somewhere snapshot) (all_rows (merge_from a batches)).
Proof.
  induction batches as [|rs batches IH]; intros a Hreads Ha; [done|].
  apply Forall_cons in Hreads as [[w ->] Hreads].
  cbn. apply IH; [done|]. apply Forall_forall. intros r Hr.
  apply add_rows_from in Hr as [Hr|Hr].
  - by apply (proj1 (Forall_forall _ _) Ha).
  - by exists w.
Qed.

Lemma harvest_rows_read w :
  Forall (read_somewhere snapshot)
    (harvest_all_pages snapshot react idle_threshold w).
Proof.
  destruct (harvest_run_batches w) as (batches & Hreads & Hacc).
  unfold harvest_all_pages. rewrite Hacc. apply merge_from_read; [done|].
  apply Forall_forall. intros r Hr.
  apply add_rows_from in Hr as [Hr|Hr]; [by apply elem_of_nil in Hr|].
  by exists w.
Qed.

End HarvestContent.

(* ===================================================================== *)
(** ** The accumulated result of a harvest *)
(* ===================================================================== *)

(** C3: through all the merges of a harvest no two accumulated rows have the
    same fingerprint; a merge leaves the rows collected so far in place and
    appends the incoming rows in first-seen order, that is, in the order of
    arrival, the first row of every fingerprint not seen before, so that the
    accumulated rows are always the rows of all the batches so far in
    first-seen order; the accumulator of a harvest is only changed by
    merges of what it reads, so that its result is the rows of its reads,
    one read after the other, in first-seen order; and the harvest of the
    two-page scenario ends with row A, then row B. *)
Theorem accumulated_rows_invariant :
  (∀ (batches : list (list row)) (rs : list row),
     let before := merge_all batches in
     let after := (add_rows rs before).2 in
     let added := first_seen_from (concat batches) rs in
     NoDup (fingerprint <$> all_rows after)
     ∧ all_rows after = all_rows before ++ added
     ∧ all_rows after = first_seen (concat batches ++ rs)
     ∧ added `sublist_of` rs
     ∧ ∀ pre r post,
         rs = pre ++ r :: post →
         fingerprint r ∉ fingerprint <$> all_rows before →
         fingerprint r ∉ fingerprint <$> pre →
         r ∈ added)
  ∧ (∀ (world : Type) (snapshot : world → page)
       (react : action → world → world) (idle_threshold : nat) (w : world),
       (∃ batches,
          Forall (λ rs, ∃ w', rs = extract_table_rows (snapshot w')) batches
          ∧ hs_acc (harvest_run snapshot react idle_threshold w)
            = merge_all (extract_table_rows (snapshot w) :: batches)
          ∧ harvest_all_pages snapshot react idle_threshold w
            = first_seen (extract_table_rows (snapshot w) ++ concat batches))
       ∧ NoDup (fingerprint
                  <$> harvest_all_pages snapshot react idle_threshold w))
  ∧ harvest_all_pages shop_page count_actions 2 0 = [rowA; rowB].
Proof.
  split_and!.
  - intros batches rs before after added.
    pose proof (merge_all_ok batches) as Hok.
    destruct (merge_all_first_seen batches) as [Hbefore Hseen].
    destruct (add_rows_first_seen rs before (concat batches) Hseen)
      as [Hrows _].
    fold after added in Hrows.
    split_and!.
    + by apply add_rows_ok.
    + done.
    + rewrite Hrows. unfold before, added, first_seen.
      by rewrite Hbefore, first_seen_from_app.
    + apply first_seen_from_sublist.
    + destruct (add_rows_appends rs before) as (added' & Hrows' & _ & Hfirst).
      fold after in Hrows'. rewrite Hrows in Hrows'.
      apply app_inv_head in Hrows'. subst added'.
      intros pre r post Heq Hnew Hpre. apply (Hfirst pre r post); [done| |done].
      intros Hin. apply Hnew. destruct Hok as [Hset _].
      subst before. rewrite Hset in Hin. by apply elem_of_list_to_set in Hin.
  - intros world snapshot react idle_threshold w.
    destruct (harvest_run_batches snapshot react idle_threshold w)
      as (bs & Hreads & Hbs).
    change (hs_acc (harvest_run snapshot react idle_threshold w)
            = merge_all (extract_table_rows (snapshot w) :: bs)) in Hbs.
    split.
    + exists bs. split_and!; [done..|]. unfold harvest_all_pages. rewrite Hbs.
      apply (merge_all_first_seen (extract_table_rows (snapshot w) :: bs)).
    + unfold harvest_all_pages. rewrite Hbs. apply merge_all_ok.
  - by vm_compute.
Qed.

(** X8: when the button is there on the first n pages (n at least 1 and
    within the range of the pagination loop) and gone on the next, the
    harvest returns the rows of the pages 0 to n, page after page, merged
    into the empty accumulator as one batch. *)
Theorem paginated_harvest_merges_pages {world : Type} (snapshot : world → page)
    (react : action → world → world) (idle_threshold : nat) (w : world) (n : nat) :
  1 ≤ n → n ≤ PAGINATION_CAP →
  (∀ k, k < n → has_next_page (snapshot (clicked react k w)) = true) →
  (n < PAGINATION_CAP → has_next_page (snapshot (clicked react n w)) = false) →
  harvest_all_pages snapshot react idle_threshold w
  = all_rows (add_rows (pages_rows snapshot react w 0 (S n)) empty_accum).2.
Proof.
  intros Hn1 Hn Htrue Hfalse.
  by apply (harvest_run_turned snapshot react idle_threshold w n).
Qed.

Lemma paginated_harvest_merges_pages_witness :
  harvest_all_pages shop_page count_actions 2 0
  = all_rows (add_rows (pages_rows shop_page count_actions 0 0 2) empty_accum).2.
Proof.
  apply (paginated_harvest_merges_pages shop_page count_actions 2 0 1).
  - lia.
  - unfold PAGINATION_CAP. lia.
  - intros k Hk. assert (k = 0) as -> by lia. reflexivity.
  - intros _. reflexivity.
Defined.

(** X9: when the button never goes away, the harvest makes exactly 200
    advances, each after a probe answered with true and each followed by a
    read, and then returns without a further probe and without a scroll
    step. *)
Theorem endless_next_stops_at_cap {world : Type} (snapshot : world → page)
    (react : action → world → world) (idle_threshold : nat) (w : world) :
  (∀ k, k < PAGINATION_CAP →
        has_next_page (snapshot (clicked react k w)) = true) →
  let log := hs_log (harvest_run snapshot react idle_threshold w) in
  log = EvRead :: turn_events PAGINATION_CAP
  ∧ advances log = PAGINATION_CAP
  ∧ scrolls log = [].
Proof.
  intros Htrue log. subst log.
  destruct (harvest_run_turned snapshot react idle_threshold w PAGINATION_CAP)
    as [Hlog _]; [unfold PAGINATION_CAP; lia|done|done|lia|].
  rewrite decide_False, app_nil_r in Hlog by lia. rewrite Hlog.
  split_and!; [done| |].
  - change (EvRead :: turn_events PAGINATION_CAP)
      with ([EvRead] ++ turn_events PAGINATION_CAP).
    by rewrite advances_app, advances_turn_events.
  - change (EvRead :: turn_events PAGINATION_CAP)
      with ([EvRead] ++ turn_events PAGINATION_CAP).
    by rewrite scrolls_app, scrolls_turn_events.
Qed.

Lemma endless_next_stops_at_cap_witness :
  let log := hs_log (harvest_run endless_page count_actions 2 0) in
  log = EvRead :: turn_events PAGINATION_CAP
  ∧ advances log = PAGINATION_CAP
  ∧ scrolls log = [].
Proof.
  apply (endless_next_stops_at_cap endless_page count_actions 2 0).
  intros k _. reflexivity.
Defined.

(** X10: every row a harvest returns was read by [extract_table_rows] in
    some state of the application; hence its keys are pairwise distinct and
    its values are trimmed. *)
Theorem harvested_rows_well_formed {world : Type} (snapshot : world → page)
    (react : action → world → world) (idle_threshold : nat) (w : world) :
  Forall (λ r : row,
            read_somewhere snapshot r
            ∧ NoDup r.*1
            ∧ Forall (λ kv, trimmed kv.2) r)
    (harvest_all_pages snapshot react idle_threshold w).
Proof.
  eapply Forall_impl; [apply harvest_rows_read|].
  intros r Hread. split; [done|]. destruct Hread as [w' Hr].
  apply extract_rows_are_made in Hr as (headers & cells & ->). split.
  - apply build_row_NoDup.
  - apply Forall_forall. intros kv (i & ->)%build_row_values.
    apply cell_at_trimmed.
Qed.

(** X11: the rows of the first read, without the duplicates among them, are
    the beginning of what the harvest returns, in their order. *)
Theorem first_read_leads_result {world : Type} (snapshot : world → page)
    (react : action → world → world) (idle_threshold : nat) (w : world) :
  all_rows (add_rows (extract_table_rows (snapshot w)) empty_accum).2
  `prefix_of` harvest_all_pages snapshot react idle_threshold w.
Proof.
  destruct (harvest_run_batches snapshot react idle_threshold w)
    as (batches & _ & Hacc).
  unfold harvest_all_pages. rewrite Hacc. apply merge_from_prefix.
Qed.

(** X12: the log of every harvest has one shape: the first read; then n
    turns, each a probe answered with true, an advance and a read, where n is
    the number of leading pages that show the button, at most 200; then a
    probe answered with false unless the 200 turns are used up; and after
    that, only when no turn was made, what the scroll phase does, which is
    never a probe or an advance. *)
Theorem harvest_log_shape {world : Type} (snapshot : world → page)
    (react : action → world → world) (idle_threshold : nat) (w : world) :
  ∃ (n : nat) (rest : list event),
    n ≤ PAGINATION_CAP
    ∧ (∀ k, k < n → has_next_page (snapshot (clicked react k w)) = true)
    ∧ (n < PAGINATION_CAP →
       has_next_page (snapshot (clicked react n w)) = false)
    ∧ hs_log (harvest_run snapshot react idle_threshold w)
      = EvRead :: turn_events n
        ++ (if decide (n < PAGINATION_CAP) then [EvProbe false] else [])
        ++ rest
    ∧ (1 ≤ n → rest = [])
    ∧ probes rest = [] ∧ advances rest = 0.
Proof.
  destruct (pagination_loop_run snapshot react PAGINATION_CAP false
              (read_and_merge snapshot (harvest_init w)))
    as (n & Hn & Htrue & Hfalse & Hflag & Hlog & _).
  change (pagination_loop snapshot react PAGINATION_CAP false
            (read_and_merge snapshot (harvest_init w)))
    with (harvest_paginate snapshot react w) in Hflag, Hlog.
  cbn zeta in Hflag, Hlog. rewrite first_read_log in Hlog.
  destruct (decide (1 ≤ n)) as [Hn1|Hn0].
  - exists n, []. rewrite bool_decide_eq_true_2 in Hflag by done.
    rewrite harvest_run_paginated, Hlog, app_nil_r by done.
    split_and!; done.
  - rewrite bool_decide_eq_false_2 in Hflag by done.
    destruct (scroll_loop_log snapshot react idle_threshold SCROLL_CAP
                (harvest_containers snapshot react w) (-1) 0
                (scroll_start snapshot react w)) as (rest & Hrest & Hp & Ha).
    exists n, rest. rewrite harvest_run_scrolling, Hrest by done.
    unfold scroll_start. rewrite Hlog, <-!app_assoc.
    split_and!; done.
Qed.


(* ===================================================================== *)
(** ** The wizard *)
(* ===================================================================== *)

Section WizardFacts.

Context {world : Type}.
Variable label_visible : string → world → option bool.
Variable next_visible : world → bool.
Variable press_next : world → world.

#[local] Abbreviation loop := (wizard_loop label_visible next_visible press_next).
#[local] Abbreviation pressed k w := (Nat.iter k press_next w).

Lemma wizard_loop_step i remaining w :
  loop i (S remaining) w
  = if next_visible w then loop (S i) remaining (press_next w)
    else WizardRaised i w.
Proof.
  cbn [wizard_loop]. destruct (probe_step_label label_visible i w).
  unfold smart_click. by destruct (next_visible w).
Qed.

(** How the loop ends, from step [i] with [remaining] clicks to go. *)
Lemma wizard_loop_outcome remaining : ∀ i w,
  match loop i remaining w with
  | WizardDone w' =>
      w' = pressed remaining w
      ∧ ∀ k, k < remaining → next_visible (pressed k w) = true
  | WizardRaised j w' =>
      ∃ d, j = i + d ∧ d < remaining
        ∧ w' = pressed d w
        ∧ next_visible w' = false
        ∧ ∀ k, k < d → next_visible (pressed k w) = true
  end.
Proof.
  induction remaining as [|remaining IH]; intros i w.
  { split; [done|]. intros k Hk. lia. }
  rewrite wizard_loop_step. destruct (next_visible w) eqn:Hnext.
  - specialize (IH (S i) (press_next w)).
    destruct (loop (S i) remaining (press_next w)) as [w'|j w'].
    + destruct IH as [-> Hall]. split; [by rewrite Nat.iter_succ_r|].
      intros [|k] Hk; [done|]. rewrite Nat.iter_succ_r. apply Hall. lia.
    + destruct IH as (d & -> & Hd & -> & Hstop & Hall).
      exists (S d). rewrite Nat.iter_succ_r. split_and!; [lia|lia|done|done|].
      intros [|k] Hk; [done|]. rewrite Nat.iter_succ_r. apply Hall. lia.
  - exists 0. split_and!; [lia|lia|done|done|]. intros k Hk. lia.
Qed.

End WizardFacts.



(* ===================================================================== *)
(** ** Repeated header texts, and tables that do not change *)
(* ===================================================================== *)

Section RepeatedHeaders.

Implicit Types (d : row) (headers cells : list string).

Lemma dict_get_set k v d k' :
  dict_get k' (dict_set k v d)
  = if decide (k' = k) then Some v else dict_get k' d.
Proof.
  induction d as [|[k0 v0] d IH]; cbn [dict_set dict_get]; [done|].
  destruct (decide (k = k0)) as [->|Hne]; cbn [dict_get].
  - by repeat case_decide.
  - rewrite IH. repeat case_decide; simplify_eq; done.
Qed.

Lemma dict_of_items_snoc items kv :
  dict_of_items (items ++ [kv]) = dict_set kv.1 kv.2 (dict_of_items items).
Proof. unfold dict_of_items. by rewrite foldl_app. Qed.

(** The value under a key of a comprehension over the headers: the one of
    the last column with that header. *)
Lemma dict_get_last_column (f : nat → string) headers : ∀ j h,
  headers !! j = Some h →
  (∀ j', j < j' → headers !! j' ≠ Some h) →
  dict_get h (dict_of_items (imap (λ i k, (k, f i)) headers)) = Some (f j).
Proof.
  induction headers as [|x hs IH] using rev_ind; intros j h Hj Hlast; [done|].
  rewrite imap_app. cbn [imap]. rewrite dict_of_items_snoc. cbn [fst snd].
  rewrite Nat.add_0_r, dict_get_set.
  destruct (decide (j = length hs)) as [->|Hne].
  - rewrite lookup_app_r, Nat.sub_diag in Hj by lia. cbn in Hj. simplify_eq.
    by rewrite decide_True.
  - assert (j < length hs) as Hlt.
    { apply lookup_lt_Some in Hj. rewrite length_app in Hj. cbn in Hj. lia. }
    rewrite lookup_app_l in Hj by done.
    rewrite decide_False.
    + apply IH; [done|]. intros j' Hj' Hsome.
      apply (Hlast j' Hj'). rewrite lookup_app_l; [done|].
      by apply lookup_lt_Some in Hsome.
    + intros ->. apply (Hlast (length hs)); [lia|].
      by rewrite lookup_app_r, Nat.sub_diag by lia.
Qed.

Lemma make_row_last_column headers cells j h :
  headers !! j = Some h →
  (∀ j', j < j' → headers !! j' ≠ Some h) →
  dict_get h (make_row headers cells) = Some (cell_at cells j).
Proof.
  intros Hj Hlast. unfold make_row, build_row.
  destruct headers as [|h0 hs] eqn:Hh; [done|]. rewrite <-Hh in *.
  rewrite (dict_get_last_column _ headers j h Hj Hlast).
  f_equal. apply cell_at_normalize. by apply lookup_lt_Some in Hj.
Qed.

End RepeatedHeaders.

(** X14: under a header text, a row holds the cell of the last column with
    that header (stripped, or empty when the row is too short): when a
    header text is repeated, the cells of the earlier columns with that
    header are not in the row. *)
Theorem repeated_header_keeps_last_column (headers cells : list string)
    (j : nat) (h : string) :
  headers !! j = Some h →
  (∀ j', j < j' → headers !! j' ≠ Some h) →
  dict_get h (make_row headers cells) = Some (cell_at cells j)
  ∧ dict_len (make_row headers cells) ≤ length headers.
Proof.
  intros Hj Hlast. split; [by apply make_row_last_column|].
  apply make_row_length_le. intros ->. done.
Qed.

Lemma repeated_header_keeps_last_column_witness :
  dict_get "item" (make_row ["item"; "item"] ["1"; "2"])
  = Some (cell_at ["1"; "2"] 1)
  ∧ dict_len (make_row ["item"; "item"] ["1"; "2"]) ≤ 2.
Proof.
  apply (repeated_header_keeps_last_column ["item"; "item"] ["1"; "2"] 1 "item").
  - reflexivity.
  - intros [|[|j']] Hj; [lia|lia|]. discriminate.
Defined.

Section StaticTable.

Context {world : Type}.
Variable snapshot : world → page.
Variable react : action → world → world.
Variable idle_threshold : nat.

Lemma merge_same_batches (rs : list row) (batches : list (list row)) :
  Forall (λ rs', rs' = rs) batches →
  foldl (λ (a : accum) (rs' : list row), (add_rows rs' a).2)
    (add_rows rs empty_accum).2 batches
  = (add_rows rs empty_accum).2.
Proof.
  induction batches as [|rs' batches IH]; intros Hall; [done|].
  apply Forall_cons in Hall as [-> Hall]. cbn [foldl].
  rewrite add_rows_all_seen; [by apply IH|].
  intros r Hr. by apply add_rows_records.
Qed.

Lemma static_harvest (w : world) :
  (∀ w', extract_table_rows (snapshot w') = extract_table_rows (snapshot w)) →
  harvest_all_pages snapshot react idle_threshold w
  = all_rows (add_rows (extract_table_rows (snapshot w)) empty_accum).2.
Proof.
  intros Hsame.
  destruct (harvest_run_batches snapshot react idle_threshold w)
    as (batches & Hreads & Hacc).
  unfold harvest_all_pages. rewrite Hacc, merge_same_batches; [done|].
  eapply Forall_impl; [exact Hreads|]. intros rs [w' ->]. apply Hsame.
Qed.

End StaticTable.

(** X15: reading the same table again adds nothing: when the application
    shows the same rows in every state, a harvest returns the rows of its
    first read, without duplicates, however many pages it turns or rounds
    it scrolls. *)
Theorem unchanged_table_read_once {world : Type} (snapshot : world → page)
    (react : action → world → world) (idle_threshold : nat) (w : world) :
  (∀ w', extract_table_rows (snapshot w') = extract_table_rows (snapshot w)) →
  harvest_all_pages snapshot react idle_threshold w
  = all_rows (add_rows (extract_table_rows (snapshot w)) empty_accum).2.
Proof. apply static_harvest. Qed.

Lemma unchanged_table_read_once_witness :
  harvest_all_pages endless_page count_actions 2 0
  = all_rows (add_rows (extract_table_rows (endless_page 0)) empty_accum).2.
Proof.
  apply (unchanged_table_read_once endless_page count_actions 2 0).
  intros w'. reflexivity.
Defined.
